(** * reptyr: terminal relay and attach orchestration (reptyr.c)

    A shallow embedding of [reptyr.c].  The program is a sequence of
    system calls whose answers come from the operating system, so every
    function is a computation in a small monad that

    - threads the two global variables of the file ([verbose] and
      [winch_happened]),
    - records every system call and every message in a trace, and
    - stops early when the process leaves through [exit], through a
      [return] of [main], or through a successful [execvp].

    The answers of the operating system are data: an [env] record for the
    calls that are made at most once, and scripts (lists of answers) for
    the calls made inside loops.  A loop that outlives its script is
    reported as [Unfinished]: the process is still running. *)

From Stdlib Require Import ZArith List String Ascii Bool Lia.
Import ListNotations.
Open Scope Z_scope.

(** ** Constants of the platform (Linux, LP64) *)

Definition EPERM : Z := 1.
Definition EINTR : Z := 4.
Definition ERANGE : Z := 34.

Definition LONG_MAX : Z := 2 ^ 63 - 1.
Definition LONG_MIN : Z := - 2 ^ 63.
Definition INT_MAX : Z := 2 ^ 31 - 1.

(** Conversion of an integer to [int] or [pid_t] (32 bits, two's
    complement), as the compiler does it for [(pid_t)t] and for
    [return rv] in a function returning [int]. *)
Definition to_int (z : Z) : Z := (z + 2 ^ 31) mod 2 ^ 32 - 2 ^ 31.

(** ** Terminal data *)

(** [struct termios]: the four flag words and the control characters. *)
Record termios : Type := mk_termios {
  c_iflag : Z;
  c_oflag : Z;
  c_cflag : Z;
  c_lflag : Z;
  c_cc : list Z
}.

(** [struct winsize], fields in declaration order. *)
Record winsize : Type := mk_winsize {
  ws_row : Z;
  ws_col : Z;
  ws_xpixel : Z;
  ws_ypixel : Z
}.

Module Termios.

Definition IGNBRK : Z := 0x1.
Definition BRKINT : Z := 0x2.
Definition PARMRK : Z := 0x8.
Definition ISTRIP : Z := 0x20.
Definition INLCR : Z := 0x40.
Definition IGNCR : Z := 0x80.
Definition ICRNL : Z := 0x100.
Definition IXON : Z := 0x400.
Definition OPOST : Z := 0x1.
Definition ISIG : Z := 0x1.
Definition ICANON : Z := 0x2.
Definition ECHO : Z := 0x8.
Definition ECHONL : Z := 0x40.
Definition IEXTEN : Z := 0x8000.
Definition CSIZE : Z := 0x30.
Definition CS8 : Z := 0x30.
Definition PARENB : Z := 0x100.
Definition VTIME : nat := 5.
Definition VMIN : nat := 6.

(** [flags & ~mask] on a non-negative flag word. *)
Definition clear_bits (flags mask : Z) : Z := Z.ldiff flags mask.

Fixpoint set_cc (cc : list Z) (i : nat) (v : Z) : list Z :=
  match cc, i with
  | [], _ => []
  | _ :: tl, O => v :: tl
  | hd :: tl, S j => hd :: set_cc tl j v
  end.

(** [cfmakeraw] of the C library, as termios(3) documents it. *)
Definition cfmakeraw (t : termios) : termios :=
  {| c_iflag := clear_bits (c_iflag t)
       (Z.lor IGNBRK (Z.lor BRKINT (Z.lor PARMRK (Z.lor ISTRIP
         (Z.lor INLCR (Z.lor IGNCR (Z.lor ICRNL IXON)))))));
     c_oflag := clear_bits (c_oflag t) OPOST;
     c_cflag := Z.lor (clear_bits (c_cflag t) (Z.lor CSIZE PARENB)) CS8;
     c_lflag := clear_bits (c_lflag t)
       (Z.lor ECHO (Z.lor ECHONL (Z.lor ICANON (Z.lor ISIG IEXTEN))));
     c_cc := set_cc (set_cc (c_cc t) VMIN 1) VTIME 0 |}.

End Termios.

(** ** Observable events *)

Inductive open_mode : Type := O_RDONLY | O_WRONLY.

Inductive event : Type :=
| Stderr (msg : string)
| Stdout (msg : string)
| Usage (me : string)
| GetPt
| Unlockpt (fd : Z)
| Grantpt (fd : Z)
| AttachChild (pid : Z) (path : string) (force_stdio : Z)
| StealPty (pid : Z)
| PtraceScopeHint
| Fork
| Setenv (name value : string) (overwrite : Z)
| Setpgid
| Setsid
| Open (path : string) (mode : open_mode)
| Dup2 (oldfd newfd : Z)
| Close (fd : Z)
| Execvp (file : string) (args : list string)
| Tcgetattr (fd : Z)
| Tcsetattr (fd : Z) (t : termios)
| Sigprocmask
| Sigaction
| GetWinsize (fd : Z)
| SetWinsize (fd : Z) (sz : winsize)
| Pselect (nfds : Z)
| ReadFd (fd : Z) (rv : Z)
| WriteFd (fd : Z) (buf : list Byte.byte) (count : Z) (rv : Z).

(** How a process ends, seen from outside. *)
Inductive outcome : Type :=
| Exit (status : Z)
| ExecImage (file : string) (args : list string)
| Unfinished.

(** ** The monad *)

Record globals : Type := mk_globals {
  verbose : Z;
  winch_happened : Z
}.

Inductive res (A : Type) : Type :=
| Ret (a : A)
| Halt (o : outcome).
Arguments Ret {A} a.
Arguments Halt {A} o.

Record run (A : Type) : Type := mk_run {
  result : res A;
  after : globals;
  trace : list event
}.
Arguments mk_run {A} _ _ _.
Arguments result {A} _.
Arguments after {A} _.
Arguments trace {A} _.

Definition M (A : Type) : Type := globals -> run A.

Definition ret {A} (a : A) : M A := fun g => mk_run (Ret a) g [].

Definition halt {A} (o : outcome) : M A := fun g => mk_run (Halt o) g [].

Definition bind {A B} (m : M A) (f : A -> M B) : M B :=
  fun g =>
    let r := m g in
    match result r with
    | Ret a =>
        let r' := f a (after r) in
        mk_run (result r') (after r') (trace r ++ trace r')
    | Halt o => mk_run (Halt o) (after r) (trace r)
    end.

Definition emit (e : event) : M unit := fun g => mk_run (Ret tt) g [e].

Definition get_globals : M globals := fun g => mk_run (Ret g) g [].

Definition put_globals (g' : globals) : M unit := fun _ => mk_run (Ret tt) g' [].

Declare Scope proc_scope.
Delimit Scope proc_scope with proc.
Notation "x <- m ;; k" := (bind m (fun x => k))
  (at level 100, m at next level, right associativity) : proc_scope.
Notation "' p <- m ;; k" := (bind m (fun p => k))
  (at level 100, p pattern, m at next level, right associativity) : proc_scope.
Notation "m ;; k" := (bind m (fun _ => k))
  (at level 100, right associativity) : proc_scope.
Open Scope proc_scope.

(** [die]: the message with its prefix, then [exit(1)]. *)
Definition die {A} (msg : string) : M A :=
  emit (Stderr ("[!] " ++ msg)) ;; halt (Exit 1).

(** A system call's answer: its return value and [errno] afterwards. *)
Record sysret : Type := mk_sysret {
  rv : Z;
  errno : Z
}.

(** ** [writeall] *)

(** [ws] holds the answers of the successive [write] calls.  [buf] is the
    memory from the current position of the pointer on; [buf += rv] drops
    its first [rv] bytes. *)
Fixpoint writeall (ws : list sysret) (fd : Z) (buf : list Byte.byte)
    (count : Z) : M Z :=
  if count >? 0 then
    match ws with
    | [] => halt Unfinished
    | w :: ws' =>
        emit (WriteFd fd buf count (rv w)) ;;
        if rv w <? 0 then
          if errno w =? EINTR then writeall ws' fd buf count
          else ret (to_int (rv w))
        else writeall ws' fd (skipn (Z.to_nat (rv w)) buf) (count - rv w)
    end
  else ret 0.

(** The bytes a trace hands over to descriptor [fd]: of each [write] that
    did not fail, the first [rv] bytes at the pointer. *)
Fixpoint written (fd : Z) (tr : list event) : list Byte.byte :=
  match tr with
  | [] => []
  | WriteFd fd' buf _ r :: tl =>
      if (fd' =? fd) && (0 <=? r)
      then firstn (Z.to_nat r) buf ++ written fd tl
      else written fd tl
  | _ :: tl => written fd tl
  end.

(** What write(2) promises about its return value: [-1] on failure, and
    otherwise no more than was asked for. *)
Definition write_conforms (e : event) : Prop :=
  match e with
  | WriteFd _ _ count r => r = -1 \/ 0 <= r <= count
  | _ => True
  end.

(** ** Window size propagation *)

(** The answers to the two [ioctl] calls of one [resize_pty]:
    [rz_get = None] when [TIOCGWINSZ] on descriptor 0 fails, and the
    return value of [TIOCSWINSZ] on the target. *)
Record resize_env : Type := mk_resize_env {
  rz_get : option winsize;
  rz_set : Z
}.

(** Messages are recorded as the format string of the source. *)
Definition resize_pty (rz : resize_env) (pty : Z) : M unit :=
  emit (GetWinsize 0) ;;
  match rz_get rz with
  | None =>
      let defaultsize := mk_winsize 30 80 640 480 in
      emit (SetWinsize pty defaultsize) ;;
      if rz_set rz <? 0 then emit (Stderr "Cannot set terminal size\n")
      else ret tt
  | Some sz => emit (SetWinsize pty sz)
  end.

(** ** The resize flag and its handler *)

Definition SIGWINCH : Z := 28.

Definition do_winch (signal : Z) : M unit :=
  g <- get_globals ;;
  put_globals (mk_globals (verbose g) 1).

(** [n] deliveries of the signal, each running the handler. *)
Fixpoint deliver_winch (n : nat) : M unit :=
  match n with
  | O => ret tt
  | S k => do_winch SIGWINCH ;; deliver_winch k
  end.

(** ** The relay *)

(** One [pselect]: the signal is unblocked only inside the call, so the
    handler runs [w_signals] times there; then the return value, [errno]
    and the descriptors left in the set. *)
Record wait_answer : Type := mk_wait_answer {
  w_signals : nat;
  w_ret : sysret;
  w_ready : Z -> bool
}.

Record read_answer : Type := mk_read_answer {
  rd_count : Z;
  rd_data : list Byte.byte
}.

(** The answers one iteration of the loop may ask for. *)
Record round : Type := mk_round {
  r_resize : resize_env;
  r_wait : wait_answer;
  r_read0 : read_answer;
  r_write_pty : list sysret;
  r_readpty : read_answer;
  r_write_out : list sysret
}.

(** [buf] after a [read] that stored [rd_data] at its start. *)
Definition read_into (buf : list Byte.byte) (a : read_answer) : list Byte.byte :=
  if rd_count a >? 0
  then (rd_data a ++ skipn (List.length (rd_data a)) buf)%list
  else buf.

(** How one pass through the body of [while (1)] ends: at the closing
    brace or a [continue], or at a [return]. *)
Inductive flow : Type :=
| Continue (buf : list Byte.byte)
| Return.

(** The top of the loop body: [if (winch_happened) { ... }]. *)
Definition service_winch (rz : resize_env) (pty : Z) : M unit :=
  g <- get_globals ;;
  if winch_happened g =? 0 then ret tt
  else
    put_globals (mk_globals (verbose g) 0) ;;
    resize_pty rz pty.

(** The block [if (FD_ISSET(0, &set)) { ... }]. *)
Definition relay_local (r : round) (pty : Z) (buf : list Byte.byte) : M flow :=
  if w_ready (r_wait r) 0 then
    let count := rd_count (r_read0 r) in
    emit (ReadFd 0 count) ;;
    if count <? 0 then ret Return
    else
      let buf' := read_into buf (r_read0 r) in
      writeall (r_write_pty r) pty buf' count ;;
      ret (Continue buf')
  else ret (Continue buf).

(** The block [if (FD_ISSET(pty, &set)) { ... }]. *)
Definition relay_target (r : round) (pty : Z) (buf : list Byte.byte) : M flow :=
  if w_ready (r_wait r) pty then
    let count := rd_count (r_readpty r) in
    emit (ReadFd pty count) ;;
    if count <=? 0 then ret Return
    else
      let buf' := read_into buf (r_readpty r) in
      writeall (r_write_out r) 1 buf' count ;;
      ret (Continue buf')
  else ret (Continue buf).

Definition proxy_iteration (pty : Z) (r : round) (buf : list Byte.byte) : M flow :=
  service_winch (r_resize r) pty ;;
  emit (Pselect (pty + 1)) ;;
  deliver_winch (w_signals (r_wait r)) ;;
  if rv (w_ret (r_wait r)) <? 0 then
    if errno (w_ret (r_wait r)) =? EINTR then ret (Continue buf)
    else emit (Stderr "select: %m") ;; ret Return
  else
    f <- relay_local r pty buf ;;
    match f with
    | Return => ret Return
    | Continue buf1 => relay_target r pty buf1
    end.

Fixpoint proxy_loop (pty : Z) (rounds : list round) (buf : list Byte.byte) : M unit :=
  match rounds with
  | [] => halt Unfinished
  | r :: rs =>
      f <- proxy_iteration pty r buf ;;
      match f with
      | Return => ret tt
      | Continue buf' => proxy_loop pty rs buf'
      end
  end.

Record proxy_env : Type := mk_proxy_env {
  px_sigprocmask : Z;
  px_resize : resize_env;
  px_buf : list Byte.byte;
  px_rounds : list round
}.

Definition do_proxy (px : proxy_env) (pty : Z) : M unit :=
  emit Sigprocmask ;;
  if px_sigprocmask px =? -1 then emit (Stderr "sigprocmask: %m")
  else
    emit Sigaction ;;
    resize_pty (px_resize px) pty ;;
    proxy_loop pty (px_rounds px) (px_buf px).

(** ** Raw mode *)

Record raw_env : Type := mk_raw_env {
  t_get : option termios;
  t_set : Z
}.

(** The result is the contents of [*save] when the function returns. *)
Definition setup_raw (te : raw_env) (save : termios) : M termios :=
  emit (Tcgetattr 0) ;;
  match t_get te with
  | None =>
      emit (Stderr "Unable to read terminal attributes: %m") ;;
      ret save
  | Some cur =>
      let set := Termios.cfmakeraw cur in
      emit (Tcsetattr 0 set) ;;
      if t_set te <? 0 then die "Unable to set terminal attributes: %m"
      else ret cur
  end.

(** The [do ... while (errno == EINTR)] at the end of [main].  [errno] is
    zeroed before each call, so an answer's [errno] is its value after
    the call. *)
Fixpoint restore_loop (answers : list sysret) (saved : termios) : M unit :=
  match answers with
  | [] => halt Unfinished
  | a :: rest =>
      emit (Tcsetattr 0 saved) ;;
      if negb (rv a =? 0) && negb (errno a =? EINTR)
      then die "Unable to tcsetattr: %m"
      else if errno a =? EINTR then restore_loop rest saved
      else ret tt
  end.

(** ** The C library on strings: [strtol] and [getopt] *)

Definition code (c : ascii) : Z := Z.of_N (N_of_ascii c).

(** [isspace] in the C locale: space, and the controls from [\t] to [\r]. *)
Definition isspace (c : ascii) : bool :=
  (code c =? 32) || ((9 <=? code c) && (code c <=? 13)).

Definition isdigit (c : ascii) : bool :=
  (48 <=? code c) && (code c <=? 57).

(** The character a [char *] points at; the end of the string reads as
    the terminating zero. *)
Definition deref (s : string) : Z :=
  match s with
  | EmptyString => 0
  | String c _ => code c
  end.

(** An argument string of C has no zero byte inside. *)
Fixpoint is_cstring (s : string) : Prop :=
  match s with
  | EmptyString => True
  | String c tl => code c <> 0 /\ is_cstring tl
  end.

Fixpoint skip_space (s : string) : string :=
  match s with
  | String c tl => if isspace c then skip_space tl else s
  | EmptyString => s
  end.

(** The run of decimal digits at the start of [s], accumulated onto
    [acc], and what follows it. *)
Fixpoint strtol_digits (acc : Z) (s : string) : Z * string :=
  match s with
  | String c tl =>
      if isdigit c then strtol_digits (10 * acc + (code c - 48)) tl
      else (acc, s)
  | EmptyString => (acc, s)
  end.

Definition starts_with_digit (s : string) : bool :=
  match s with
  | String c _ => isdigit c
  | EmptyString => false
  end.

(** The optional sign: whether it is a minus, and what follows it. *)
Definition strtol_sign (s : string) : bool * string :=
  match s with
  | String c tl =>
      if Ascii.eqb c "-" then (true, tl)
      else if Ascii.eqb c "+" then (false, tl)
      else (false, s)
  | EmptyString => (false, s)
  end.

Record strtol_result : Type := mk_strtol_result {
  st_value : Z;
  st_endptr : string;
  st_errno : Z
}.

(** [strtol(s, &endptr, 10)] with [errno] zeroed before: white space, an
    optional sign, digits; without a digit nothing is converted and
    [endptr] is [s]; a value outside [long] is clamped with [ERANGE]. *)
Definition strtol (s : string) : strtol_result :=
  let '(neg, s2) := strtol_sign (skip_space s) in
  if starts_with_digit s2 then
    let '(v, rest) := strtol_digits 0 s2 in
    let t := if neg then - v else v in
    if t >? LONG_MAX then mk_strtol_result LONG_MAX rest ERANGE
    else if t <? LONG_MIN then mk_strtol_result LONG_MIN rest ERANGE
    else mk_strtol_result t rest 0
  else mk_strtol_result 0 s 0.

(** The state [getopt] keeps between calls: [optind], the option
    characters of [argv[optind]] not yet handed out, and the bounds of
    the run of non-options it has skipped. *)
Record getopt_state : Type := mk_getopt_state {
  optind : nat;
  nextchar : string;
  first_nonopt : nat;
  last_nonopt : nat
}.

Definition getopt_start : getopt_state := mk_getopt_state 1 EmptyString 1 1.

Fixpoint in_optstring (c : ascii) (optstring : string) : bool :=
  match optstring with
  | EmptyString => false
  | String o tl => Ascii.eqb c o || in_optstring c tl
  end.

(** [NONOPTION_P]: the argument does not start with a dash, or is a dash
    alone. *)
Definition nonoption (a : string) : bool :=
  match a with
  | String d (String _ _) => negb (Ascii.eqb d "-")
  | _ => true
  end.

(** [exchange]: of the arguments from [first_nonopt] up to [optind], the
    non-options, which end at [last_nonopt], move behind the options
    that follow them; both runs keep their order. *)
Definition exchange (argv : list string) (st : getopt_state)
    : list string * getopt_state :=
  let scanned := firstn (optind st) argv in
  let head := firstn (first_nonopt st) scanned in
  let middle := skipn (first_nonopt st) scanned in
  let nonopts := firstn (last_nonopt st - first_nonopt st) middle in
  let opts := skipn (last_nonopt st - first_nonopt st) middle in
  ((head ++ opts ++ nonopts ++ skipn (optind st) argv)%list,
   mk_getopt_state (optind st) (nextchar st)
     (first_nonopt st + (optind st - last_nonopt st)) (optind st)).

(** [while (optind < argc && NONOPTION_P) optind++], on the arguments
    from [optind] on. *)
Fixpoint skip_nonoptions (rest : list string) (i : nat) : nat :=
  match rest with
  | a :: tl => if nonoption a then skip_nonoptions tl (S i) else i
  | [] => i
  end.

(** The two bounds are brought back to [optind] when they lie beyond. *)
Definition rationalize (st : getopt_state) : getopt_state :=
  mk_getopt_state (optind st) (nextchar st)
    (Nat.min (first_nonopt st) (optind st))
    (Nat.min (last_nonopt st) (optind st)).

(** The step taken when the ordering is [PERMUTE]. *)
Definition permute (argv : list string) (st : getopt_state)
    : list string * getopt_state :=
  let '(argv1, st1) :=
    if negb (first_nonopt st =? last_nonopt st)%nat &&
       negb (last_nonopt st =? optind st)%nat
    then exchange argv st
    else if negb (last_nonopt st =? optind st)%nat
    then (argv, mk_getopt_state (optind st) (nextchar st) (optind st)
                  (last_nonopt st))
    else (argv, st) in
  let i := skip_nonoptions (skipn (optind st1) argv1) (optind st1) in
  (argv1, mk_getopt_state i (nextchar st1) (first_nonopt st1) i).

(** The argument ["--"] ends the options. *)
Definition end_of_options (argv : list string) (st : getopt_state)
    : list string * getopt_state :=
  let argc := List.length argv in
  if negb (optind st =? argc)%nat &&
     String.eqb (nth (optind st) argv EmptyString) "--"
  then
    let st1 := mk_getopt_state (S (optind st)) (nextchar st)
                 (first_nonopt st) (last_nonopt st) in
    let '(argv2, st2) :=
      if negb (first_nonopt st1 =? last_nonopt st1)%nat &&
         negb (last_nonopt st1 =? optind st1)%nat
      then exchange argv st1
      else if (first_nonopt st1 =? last_nonopt st1)%nat
      then (argv, mk_getopt_state (optind st1) (nextchar st1) (optind st1)
                    (last_nonopt st1))
      else (argv, st1) in
    (argv2, mk_getopt_state argc (nextchar st2) (first_nonopt st2) argc)
  else (argv, st).

(** One option character [c], followed by [tl] in the same argument;
    [opterr] is left at 1, so an unknown character is reported. *)
Definition getopt_char (argv : list string) (optstring : string)
    (st : getopt_state) (c : ascii) (tl : string)
    : M (Z * getopt_state * list string) :=
  let st' :=
    match tl with
    | EmptyString =>
        mk_getopt_state (S (optind st)) EmptyString
          (first_nonopt st) (last_nonopt st)
    | _ => mk_getopt_state (optind st) tl (first_nonopt st) (last_nonopt st)
    end in
  if in_optstring c optstring && negb (Ascii.eqb c ":") &&
     negb (Ascii.eqb c ";")
  then ret (code c, st', argv)
  else
    emit (Stderr "%s: invalid option -- '%c'\n") ;;
    ret (code "?"%char, st', argv).

(** [getopt] of the GNU C library, for an [optstring] of plain option
    letters.  The arguments are permuted as the scan goes, so that in the
    end the non-options come last, unless [POSIXLY_CORRECT] is set, when
    the scan stops at the first non-option.  The result is the value
    returned, the state, and [argv] as it stands after the call. *)
Definition getopt (posixly_correct : bool) (argv : list string)
    (optstring : string) (st : getopt_state)
    : M (Z * getopt_state * list string) :=
  match nextchar st with
  | String c tl => getopt_char argv optstring st c tl
  | EmptyString =>
      let '(argv1, st1) :=
        if posixly_correct then (argv, rationalize st)
        else permute argv (rationalize st) in
      let '(argv2, st2) := end_of_options argv1 st1 in
      if (optind st2 =? List.length argv2)%nat then
        ret (-1,
             (if negb (first_nonopt st2 =? last_nonopt st2)%nat
              then mk_getopt_state (first_nonopt st2) (nextchar st2)
                     (first_nonopt st2) (last_nonopt st2)
              else st2),
             argv2)
      else
        match nth_error argv2 (optind st2) with
        | Some (String _ (String c tl) as a) =>
            if nonoption a then
              if posixly_correct then ret (-1, st2, argv2)
              else ret (1, mk_getopt_state (S (optind st2)) (nextchar st2)
                             (first_nonopt st2) (last_nonopt st2), argv2)
            else getopt_char argv2 optstring st2 c tl
        | Some _ =>
            if posixly_correct then ret (-1, st2, argv2)
            else ret (1, mk_getopt_state (S (optind st2)) (nextchar st2)
                           (first_nonopt st2) (last_nonopt st2), argv2)
        | None => ret (-1, st2, argv2)
        end
  end.

(** ** [main] *)

(** The flags of [main] set by the options. *)
Record options : Type := mk_options {
  do_attach : Z;
  force_stdio : Z;
  do_steal : Z;
  unattached_script_redirection : Z
}.

Definition initial_options : options := mk_options 1 0 0 0.

(** The thirteen lines of [usage] are one event. *)
Definition usage (me : string) : M unit := emit (Usage me).

(** The [switch] of the option loop; [return n] inside it leaves [main]
    with status [n]. *)
Definition option_switch (me : string) (opt : Z) (o : options) : M options :=
  if opt =? code "h"%char then usage me ;; halt (Exit 0)
  else if opt =? code "l"%char then
    ret (mk_options 0 (force_stdio o) (do_steal o)
           (unattached_script_redirection o))
  else if opt =? code "L"%char then
    ret (mk_options 0 (force_stdio o) (do_steal o) 1)
  else if opt =? code "s"%char then
    ret (mk_options (do_attach o) 1 (do_steal o)
           (unattached_script_redirection o))
  else if opt =? code "T"%char then
    ret (mk_options (do_attach o) (force_stdio o) 1
           (unattached_script_redirection o))
  else if opt =? code "v"%char then
    emit (Stdout "This is reptyr version %s.\n") ;;
    emit (Stdout " by Nelson Elhage <nelhage@nelhage.com>\n") ;;
    emit (Stdout "http://github.com/nelhage/reptyr/\n") ;;
    halt (Exit 0)
  else if opt =? code "V"%char then
    g <- get_globals ;;
    put_globals (mk_globals 1 (winch_happened g)) ;;
    ret o
  else usage me ;; halt (Exit 1).

(** The [while ((opt = getopt(...)) != -1)] loop; it hands on the flags,
    the state of [getopt] and [argv] as [getopt] has left it.  Every call
    that does not return [-1] uses up part of [argv], so [fuel] beyond
    the weight of [argv] is never reached. *)
Fixpoint option_loop (fuel : nat) (posixly_correct : bool)
    (argv : list string) (st : getopt_state) (o : options)
    : M (options * getopt_state * list string) :=
  match fuel with
  | O => halt Unfinished
  | S fuel' =>
      '(opt, st', argv') <- getopt posixly_correct argv "hlLsTvV" st ;;
      if opt =? -1 then ret (o, st', argv')
      else
        o' <- option_switch (nth 0 argv' EmptyString) opt o ;;
        if (opt =? code "l"%char) || (opt =? code "L"%char)
        then ret (o', st', argv')
        else option_loop fuel' posixly_correct argv' st' o'
  end.

(** The weight of a list of arguments: its characters, and one for each
    argument. *)
Definition total_length (l : list string) : nat :=
  fold_right (fun a n => S (String.length a + n)) O l.

Definition option_fuel (argv : list string) : nat := S (total_length argv).

(** The weight [getopt] has still to look at. *)
Definition remaining (argv : list string) (st : getopt_state) : nat :=
  match nextchar st with
  | EmptyString => total_length (skipn (optind st) argv)
  | String _ tl => S (String.length tl + total_length (skipn (S (optind st)) argv))
  end.

(** The environment of one run: the values found in uninitialised
    locals, the answers of the calls [main] makes at most once, the
    scripts of its loops, and whether [POSIXLY_CORRECT] is set in the
    environment.  [get_pt], [attach_child], [steal_pty] and
    [check_ptrace_scope] belong to the platform layer. *)
Record env : Type := mk_env {
  e_junk_pty : Z;
  e_junk_termios : termios;
  e_get_pt : Z;
  e_unlockpt : Z;
  e_grantpt : Z;
  e_ptsname : Z -> string;
  e_attach_child : Z;
  e_steal_pty : Z * Z;
  e_fork : Z;
  e_open_rd : Z;
  e_open_wr : Z;
  e_execvp_fails : bool;
  e_raw : raw_env;
  e_proxy : proxy_env;
  e_restore : list sysret;
  e_posixly_correct : bool
}.

(** [if (!do_steal) { ... }]: the value of [pty] afterwards. *)
Definition allocate_pty (e : env) (o : options) : M Z :=
  if do_steal o =? 0 then
    emit GetPt ;;
    if e_get_pt e <? 0 then die "Unable to allocate a new pseudo-terminal: %m"
    else
      emit (Unlockpt (e_get_pt e)) ;;
      if e_unlockpt e <? 0 then die "Unable to unlockpt: %m"
      else
        emit (Grantpt (e_get_pt e)) ;;
        if e_grantpt e <? 0 then die "Unable to grantpt: %m"
        else ret (e_get_pt e)
  else ret (e_junk_pty e).

(** The checks on [argv[optind]]: the accepted [pid_t]. *)
Definition parse_pid (s : string) : M Z :=
  let r := strtol s in
  if st_errno r =? ERANGE then die "Invalid pid: %m"
  else if negb (deref (st_endptr r) =? 0) then die "Invalid pid: must be integer"
  else
    let t := st_value r in
    let child := to_int t in
    if (child <? t) || (t <? 1) then die "Invalid pid: %s"
    else ret child.

(** The [if (do_attach)] branch: the value of [pty] afterwards. *)
Definition attach_branch (e : env) (o : options) (pidarg : string)
    (pty : Z) : M Z :=
  child <- parse_pid pidarg ;;
  '(err, pty') <-
    (if negb (do_steal o =? 0) then
       emit (StealPty child) ;; ret (fst (e_steal_pty e), snd (e_steal_pty e))
     else
       emit (AttachChild child (e_ptsname e pty) (force_stdio o)) ;;
       ret (e_attach_child e, pty)) ;;
  if negb (err =? 0) then
    emit (Stderr "Unable to attach to pid %d: %s\n") ;;
    (if err =? EPERM then emit PtraceScopeHint else ret tt) ;;
    halt (Exit 1)
  else ret pty'.

(** The body of [if (!fork())], which only the child runs. *)
Definition child_branch (e : env) (o : options) (argv : list string)
    (pty : Z) : M unit :=
  emit (Setenv "REPTYR_PTY" (e_ptsname e pty) 1) ;;
  (if negb (unattached_script_redirection o =? 0) then
     emit Setpgid ;;
     emit Setsid ;;
     emit (Open (e_ptsname e pty) O_RDONLY) ;;
     emit (Dup2 (e_open_rd e) 0) ;;
     emit (Close (e_open_rd e)) ;;
     emit (Open (e_ptsname e pty) O_WRONLY) ;;
     emit (Dup2 (e_open_wr e) 1) ;;
     emit (Dup2 (e_open_wr e) 2) ;;
     emit (Close (e_open_wr e))
   else ret tt) ;;
  emit (Close pty) ;;
  emit (Execvp (nth 2 argv EmptyString) (skipn 2 argv)) ;;
  if e_execvp_fails e then halt (Exit 1)
  else halt (ExecImage (nth 2 argv EmptyString) (skipn 2 argv)).

Definition newline : string := String (ascii_of_nat 10) EmptyString.

(** The [else] branch of [if (do_attach)]; its message is recorded as
    printed, with the slave's path. *)
Definition create_branch (e : env) (o : options) (argv : list string)
    (pty : Z) : M unit :=
  emit (Stdout ("Opened a new pty: " ++ e_ptsname e pty ++ newline)) ;;
  if (2 <? List.length argv)%nat then
    emit Fork ;;
    if e_fork e =? 0 then child_branch e o argv pty else ret tt
  else ret tt.

(** From [setup_raw] to the end of [main]. *)
Definition relay_session (e : env) (pty : Z) : M Z :=
  saved_termios <- setup_raw (e_raw e) (e_junk_termios e) ;;
  do_proxy (e_proxy e) pty ;;
  restore_loop (e_restore e) saved_termios ;;
  ret 0.

(** [main] from the check for a missing pid on, with the flags, the
    [optind] and the [argv] the option loop has left. *)
Definition main_after_options (e : env) (argv : list string) (o : options)
    (st : getopt_state) : M Z :=
  let argc := List.length argv in
  let me := nth 0 argv EmptyString in
  if negb (do_attach o =? 0) && (argc <=? optind st)%nat then
    emit (Stderr "%s: No pid specified to attach\n") ;;
    usage me ;;
    halt (Exit 1)
  else
    pty <- allocate_pty e o ;;
    pty' <-
      (if negb (do_attach o =? 0)
       then attach_branch e o (nth (optind st) argv EmptyString) pty
       else create_branch e o argv pty ;; ret pty) ;;
    relay_session e pty'.

Definition main (e : env) (argv : list string) : M Z :=
  '(o, st, argv') <- option_loop (option_fuel argv) (e_posixly_correct e)
                       argv getopt_start initial_options ;;
  main_after_options e argv' o st.

Definition initial_globals : globals := mk_globals 0 0.

(** A run of the program: how the process ends, and its trace. *)
Definition program (e : env) (argv : list string) : outcome * list event :=
  let r := main e argv initial_globals in
  (match result r with
   | Ret status => Exit status
   | Halt o => o
   end, trace r).

(** ** Vocabulary of the statements *)

(** What a call of [getopt] answers with [optstring]: the end, a letter
    of [optstring], or ['?'] together with its complaint. *)
Definition getopt_answer (optstring : string) (opt : Z) (tr : list event)
    : Prop :=
  (opt = -1 /\ tr = [])
  \/ (exists c, opt = code c /\ in_optstring c optstring = true /\ tr = [])
  \/ (opt = code "?"%char /\
      tr = [Stderr "%s: invalid option -- '%c'\n"]).

(** Where the scan stands after the non-options have been skipped: at
    the end, or at an option. *)
Definition at_option (argv : list string) (st : getopt_state) : Prop :=
  nth_error argv (optind st) = None \/
  exists a, nth_error argv (optind st) = Some a /\ nonoption a = false.

(** The three lines printed for [-v]. *)
Definition version_lines : list event :=
  [Stdout "This is reptyr version %s.\n";
   Stdout " by Nelson Elhage <nelhage@nelhage.com>\n";
   Stdout "http://github.com/nelhage/reptyr/\n"].

(** The ways the option loop leaves the program: [-h], [-v], and an
    option that [getopt] does not know. *)
Definition option_exit (me : string) (out : outcome) (tr : list event)
    : Prop :=
  (out = Exit 0 /\ tr = [Usage me])
  \/ (out = Exit 0 /\ tr = version_lines)
  \/ (out = Exit 1 /\
      tr = [Stderr "%s: invalid option -- '%c'\n"; Usage me]).

(** What a step of [getopt] keeps: the number of arguments, the pending
    characters, the program's name, and no more weight ahead than
    before. *)
Definition keeps (argv : list string) (st : getopt_state)
    (argv' : list string) (st' : getopt_state) : Prop :=
  List.length argv' = List.length argv /\
  nextchar st' = nextchar st /\
  (total_length (skipn (optind st') argv') <=
   total_length (skipn (optind st) argv))%nat /\
  ((1 <= first_nonopt st)%nat -> (1 <= optind st)%nat ->
   (1 <= first_nonopt st')%nat /\ (1 <= optind st')%nat /\
   nth 0 argv' EmptyString = nth 0 argv EmptyString).


(** What the copying code does: reads, writes and messages. *)
Definition copy_event (e : event) : Prop :=
  match e with
  | Stderr _ | ReadFd _ _ | WriteFd _ _ _ _ => True
  | _ => False
  end.

(** What [do_proxy] does at all. *)
Definition relay_event (e : event) : Prop :=
  match e with
  | Stderr _ | ReadFd _ _ | WriteFd _ _ _ _ | Sigprocmask | Sigaction
  | GetWinsize _ | SetWinsize _ _ | Pselect _ => True
  | _ => False
  end.

(** Events other than the two window-size [ioctl] calls. *)
Definition no_resize_event (e : event) : Prop :=
  match e with
  | GetWinsize _ | SetWinsize _ _ => False
  | _ => True
  end.

(** The three conditions under which a pass of the loop reaches a
    [return], read off one round of answers. *)
Definition wait_error (r : round) : Prop :=
  rv (w_ret (r_wait r)) < 0 /\ errno (w_ret (r_wait r)) <> EINTR.

Definition local_read_failure (r : round) : Prop :=
  0 <= rv (w_ret (r_wait r)) /\ w_ready (r_wait r) 0 = true /\
  rd_count (r_read0 r) < 0.

Definition target_read_end (pty : Z) (r : round) : Prop :=
  0 <= rv (w_ret (r_wait r)) /\ w_ready (r_wait r) pty = true /\
  rd_count (r_readpty r) <= 0.

(** The local cause in the widest sense: the read of the local side
    fails or finds its end. *)
Definition local_read_end (r : round) : Prop :=
  0 <= rv (w_ret (r_wait r)) /\ w_ready (r_wait r) 0 = true /\
  rd_count (r_read0 r) <= 0.

(** [buf] after the block of the local side, and after a pass that has
    reached the closing brace of the loop. *)
Definition local_buffer (r : round) (buf : list Byte.byte) : list Byte.byte :=
  if w_ready (r_wait r) 0 then read_into buf (r_read0 r) else buf.

Definition pass_buffer (pty : Z) (r : round) (buf : list Byte.byte)
    : list Byte.byte :=
  if w_ready (r_wait r) pty
  then read_into (local_buffer r buf) (r_readpty r)
  else local_buffer r buf.

(** The events of a [resize_pty] whose size query failed. *)
Definition fallback_events (rz : resize_env) (pty : Z) : list event :=
  [GetWinsize 0; SetWinsize pty (mk_winsize 30 80 640 480)] ++
  (if rz_set rz <? 0 then [Stderr "Cannot set terminal size\n"] else []).

(** A restore attempt after which the loop goes round again. *)
Definition interrupted (a : sysret) : Prop := errno a = EINTR.

(** What the spec asks of a pid argument: white space and a plus sign
    as [strtol] allows them, then nothing but decimal digits, at least
    one, whose value is at least 1 and fits a [pid_t]. *)
Fixpoint all_chars (p : ascii -> bool) (s : string) : bool :=
  match s with
  | EmptyString => true
  | String c tl => p c && all_chars p tl
  end.

Fixpoint decimal_value (acc : Z) (ds : string) : Z :=
  match ds with
  | EmptyString => acc
  | String c tl => decimal_value (10 * acc + (code c - 48)) tl
  end.

Definition valid_pid_string (s : string) : Prop :=
  exists ws sign ds,
    s = (ws ++ sign ++ ds)%string /\
    all_chars isspace ws = true /\
    (sign = EmptyString \/ sign = "+"%string) /\
    ds <> EmptyString /\
    all_chars isdigit ds = true /\
    1 <= decimal_value 0 ds <= INT_MAX.

(** What [main] does before it looks at the pid. *)
Definition setup_event (e : event) : Prop :=
  match e with
  | GetPt | Unlockpt _ | Grantpt _ | Stderr _ => True
  | _ => False
  end.

(** A trace in which the relay loop was entered: it waited. *)
Definition enters_relay (tr : list event) : Prop :=
  exists nfds, In (Pselect nfds) tr.

(** ** Sample runs *)

Definition sample_termios : termios := mk_termios 0x500 0x5 0xbf 0x8a3b [].

(** The target's side reports its end. *)
Definition target_eof_round : round :=
  mk_round (mk_resize_env None 0)
    (mk_wait_answer 0 (mk_sysret 1 0) (fun fd => fd =? 5))
    (mk_read_answer 0 []) [] (mk_read_answer 0 []) [].

(** The local side reports its end, the target is silent. *)
Definition local_eof_round : round :=
  mk_round (mk_resize_env None 0)
    (mk_wait_answer 0 (mk_sysret 1 0) (fun fd => fd =? 0))
    (mk_read_answer 0 []) [] (mk_read_answer 0 []) [].

(** A run in the parent: the pty is descriptor 5, the size query fails,
    the target ends in the first round, and the restore is interrupted
    once. *)
Definition sample_env : env :=
  mk_env 77 sample_termios 5 0 0 (fun _ => "/dev/pts/9"%string) 0 (0, 6)
    1234 7 8 false
    (mk_raw_env (Some sample_termios) 0)
    (mk_proxy_env 0 (mk_resize_env None 0) [] [target_eof_round])
    [mk_sysret (-1) EINTR; mk_sysret 0 0] false.

(** The same run seen from the child that [fork] creates. *)
Definition sample_child_env : env :=
  mk_env 77 sample_termios 5 0 0 (fun _ => "/dev/pts/9"%string) 0 (0, 6)
    0 7 8 false
    (mk_raw_env (Some sample_termios) 0)
    (mk_proxy_env 0 (mk_resize_env None 0) [] [target_eof_round])
    [mk_sysret (-1) EINTR; mk_sysret 0 0] false.

(** The same run with [tcgetattr] failing. *)
Definition sample_noattr_env : env :=
  mk_env 77 sample_termios 5 0 0 (fun _ => "/dev/pts/9"%string) 0 (0, 6)
    1234 7 8 false
    (mk_raw_env None 0)
    (mk_proxy_env 0 (mk_resize_env None 0) [] [target_eof_round])
    [mk_sysret (-1) EINTR; mk_sysret 0 0] false.

(** Three bytes, and a script that writes them: an interrupted call, two
    of them taken, the last one taken. *)
Definition sample_bytes : list Byte.byte := [Byte.x61; Byte.x62; Byte.x63].

Definition sample_writes : list sysret :=
  [mk_sysret (-1) EINTR; mk_sysret 2 0; mk_sysret 1 0].

(** ** Diagnostics *)

(** [_debug]: the prefix when there is one, then the message; the line is
    recorded like that of [die], without the newline that ends it. *)
Definition _debug (pfx : option string) (msg : string) : M unit :=
  emit (Stderr (match pfx with Some p => p | None => EmptyString end ++ msg)).

Definition debug (msg : string) : M unit :=
  g <- get_globals ;;
  if verbose g =? 0 then ret tt
  else _debug (Some "[+] "%string) msg.

Definition error (msg : string) : M unit := _debug (Some "[-] "%string) msg.

(** ** Vocabulary of the further statements *)

(** A [write] answer that [writeall] retries. *)
Definition interrupted_write (w : sysret) : bool :=
  (rv w <? 0) && (errno w =? EINTR).

(** The exit statuses of the program. *)
Definition exit_ok (o : outcome) : Prop :=
  match o with
  | Exit status => status = 0 \/ status = 1
  | _ => True
  end.

(** A computation that leaves, if at all, with an outcome in [P]. *)
Definition halts_in {A} (P : outcome -> Prop) (r : run A) : Prop :=
  match result r with
  | Ret _ => True
  | Halt o => P o
  end.

(** Events by which the terminal, the relay or the platform layer is
    reached. *)
Definition session_event (e : event) : Prop :=
  match e with
  | AttachChild _ _ _ | StealPty _ | Tcgetattr _ | Tcsetattr _ _
  | Sigprocmask | Sigaction | Pselect _ | ReadFd _ _ | WriteFd _ _ _ _
  | GetWinsize _ | SetWinsize _ _ => True
  | _ => False
  end.

(** The snapshot a session holds after [setup_raw]. *)
Definition session_snapshot (e : env) : termios :=
  match t_get (e_raw e) with
  | Some cur => cur
  | None => e_junk_termios e
  end.

(** The calls by which the child binds its standard streams to the
    slave. *)
Definition redirect_events (e : env) (pty : Z) : list event :=
  [Setpgid; Setsid;
   Open (e_ptsname e pty) O_RDONLY; Dup2 (e_open_rd e) 0; Close (e_open_rd e);
   Open (e_ptsname e pty) O_WRONLY; Dup2 (e_open_wr e) 1; Dup2 (e_open_wr e) 2;
   Close (e_open_wr e)].

(** A round in which the wait is interrupted by one window change. *)
Definition winch_round : round :=
  mk_round (mk_resize_env (Some (mk_winsize 24 80 0 0)) 0)
    (mk_wait_answer 1 (mk_sysret (-1) EINTR) (fun _ => false))
    (mk_read_answer 0 []) [] (mk_read_answer 0 []) [].

(** A round in which both sides have three bytes and both writes fail
    with [EIO]. *)
Definition failed_write_round : round :=
  mk_round (mk_resize_env None 0)
    (mk_wait_answer 0 (mk_sysret 2 0) (fun fd => (fd =? 0) || (fd =? 5)))
    (mk_read_answer 3 sample_bytes) [mk_sysret (-1) 5]
    (mk_read_answer 3 sample_bytes) [mk_sysret (-1) 5].

(** A round in which three bytes arrive on the local side and are
    written to the target in two calls. *)
Definition local_data_round : round :=
  mk_round (mk_resize_env None 0)
    (mk_wait_answer 0 (mk_sysret 1 0) (fun fd => fd =? 0))
    (mk_read_answer 3 sample_bytes) [mk_sysret 2 0; mk_sysret 1 0]
    (mk_read_answer 0 []) [].

(** Runs in which one call fails: [tcsetattr] to raw mode, [sigprocmask],
    [get_pt], and an attach refused with [EPERM]. *)
Definition sample_rawfail_env : env :=
  mk_env 77 sample_termios 5 0 0 (fun _ => "/dev/pts/9"%string) 0 (0, 6)
    1234 7 8 false
    (mk_raw_env (Some sample_termios) (-1))
    (mk_proxy_env 0 (mk_resize_env None 0) [] [target_eof_round])
    [mk_sysret 0 0] false.

Definition sample_nomask_env : env :=
  mk_env 77 sample_termios 5 0 0 (fun _ => "/dev/pts/9"%string) 0 (0, 6)
    1234 7 8 false
    (mk_raw_env (Some sample_termios) 0)
    (mk_proxy_env (-1) (mk_resize_env None 0) [] [target_eof_round])
    [mk_sysret 0 0] false.

Definition sample_nopty_env : env :=
  mk_env 77 sample_termios (-1) 0 0 (fun _ => "/dev/pts/9"%string) 0 (0, 6)
    1234 7 8 false
    (mk_raw_env (Some sample_termios) 0)
    (mk_proxy_env 0 (mk_resize_env None 0) [] [target_eof_round])
    [mk_sysret 0 0] false.

Definition sample_denied_env : env :=
  mk_env 77 sample_termios 5 0 0 (fun _ => "/dev/pts/9"%string) EPERM (0, 6)
    1234 7 8 false
    (mk_raw_env (Some sample_termios) 0)
    (mk_proxy_env 0 (mk_resize_env None 0) [] [target_eof_round])
    [mk_sysret 0 0] false.

(** * Properties *)

(** ** Laws of the monad *)

Lemma run_eta {A} (r : run A) : mk_run (result r) (after r) (trace r) = r.
Proof. destruct r; reflexivity. Qed.

Lemma bind_emit {A} (e : event) (k : unit -> M A) (g : globals) :
  bind (emit e) k g =
  mk_run (result (k tt g)) (after (k tt g)) (e :: trace (k tt g)).
Proof. reflexivity. Qed.

Lemma bind_ret {A B} (a : A) (k : A -> M B) (g : globals) :
  bind (ret a) k g = k a g.
Proof. unfold bind, ret; cbn. apply run_eta. Qed.

Lemma bind_result_ret {A B} (m : M A) (k : A -> M B) (g : globals) (a : A) :
  result (m g) = Ret a ->
  bind m k g =
  mk_run (result (k a (after (m g)))) (after (k a (after (m g))))
         (trace (m g) ++ trace (k a (after (m g)))).
Proof. intros H. unfold bind. rewrite H. reflexivity. Qed.

Lemma bind_result_halt {A B} (m : M A) (k : A -> M B) (g : globals) (o : outcome) :
  result (m g) = Halt o ->
  bind m k g = mk_run (Halt o) (after (m g)) (trace (m g)).
Proof. intros H. unfold bind. rewrite H. reflexivity. Qed.

Lemma result_bind {A B} (m : M A) (k : A -> M B) (g : globals) :
  result (bind m k g) =
  match result (m g) with
  | Ret a => result (k a (after (m g)))
  | Halt o => Halt o
  end.
Proof. unfold bind. destruct (result (m g)); reflexivity. Qed.

Lemma trace_bind {A B} (m : M A) (k : A -> M B) (g : globals) :
  trace (bind m k g) =
  (trace (m g) ++
   match result (m g) with
   | Ret a => trace (k a (after (m g)))
   | Halt _ => []
   end)%list.
Proof.
  unfold bind. destruct (result (m g)); cbn; [reflexivity|].
  now rewrite app_nil_r.
Qed.

Lemma after_bind {A B} (m : M A) (k : A -> M B) (g : globals) :
  after (bind m k g) =
  match result (m g) with
  | Ret a => after (k a (after (m g)))
  | Halt _ => after (m g)
  end.
Proof. unfold bind. destruct (result (m g)); reflexivity. Qed.

Lemma bind_get {A} (k : globals -> M A) (g : globals) :
  bind get_globals k g = k g g.
Proof. unfold bind, get_globals; cbn. apply run_eta. Qed.

Lemma bind_put {A} (g' : globals) (k : unit -> M A) (g : globals) :
  bind (put_globals g') k g = k tt g'.
Proof. unfold bind, put_globals; cbn. apply run_eta. Qed.

Lemma bind_run {A B} (m : M A) (k : A -> M B) (g g1 : globals) (a : A)
    (tr : list event) :
  m g = mk_run (Ret a) g1 tr ->
  bind m k g =
  mk_run (result (k a g1)) (after (k a g1)) (tr ++ trace (k a g1)).
Proof. intros H. unfold bind. rewrite H. reflexivity. Qed.

(** ** Arithmetic of [to_int] *)

Lemma to_int_range (z : Z) : - 2 ^ 31 <= to_int z <= INT_MAX.
Proof.
  unfold to_int, INT_MAX.
  pose proof (Z.mod_pos_bound (z + 2 ^ 31) (2 ^ 32) ltac:(lia)). lia.
Qed.

Lemma to_int_small (z : Z) : - 2 ^ 31 <= z <= INT_MAX -> to_int z = z.
Proof.
  unfold to_int, INT_MAX. intros H.
  rewrite Z.mod_small by lia. lia.
Qed.

(** ** [writeall] *)

Lemma firstn_then_skipn {A} (a b : nat) (l : list A) :
  (firstn a l ++ firstn b (skipn a l))%list = firstn (a + b) l.
Proof.
  revert l. induction a as [|a IH]; intros l; cbn.
  - reflexivity.
  - destruct l as [|x l]; cbn.
    + now rewrite firstn_nil.
    + now rewrite IH.
Qed.

Lemma writeall_globals ws : forall fd buf count g,
  after (writeall ws fd buf count g) = g.
Proof.
  induction ws as [|w ws IH]; intros fd buf count g; cbn;
    destruct (count >? 0); try reflexivity.
  rewrite bind_emit; cbn.
  destruct (rv w <? 0); [destruct (errno w =? EINTR)|]; auto.
Qed.

Lemma writeall_all_written ws : forall fd buf count g,
  Forall write_conforms (trace (writeall ws fd buf count g)) ->
  count <= Z.of_nat (List.length buf) ->
  result (writeall ws fd buf count g) = Ret 0 ->
  written fd (trace (writeall ws fd buf count g)) = firstn (Z.to_nat count) buf.
Proof.
  induction ws as [|w ws IH]; intros fd buf count g Hc Hlen Hres; cbn in *;
    destruct (Z.gtb_spec count 0) as [Hpos|Hpos].
  - discriminate.
  - cbn. replace (Z.to_nat count) with O by lia. reflexivity.
  - rewrite bind_emit in *; cbn in *.
    inversion Hc as [|e tl Hw Htl]; subst. cbn in Hw.
    rewrite Z.eqb_refl; cbn.
    destruct (Z.ltb_spec (rv w) 0) as [Hneg|Hnn].
    + replace (0 <=? rv w) with false by (symmetry; apply Z.leb_gt; lia).
      destruct (errno w =? EINTR).
      * apply IH; assumption.
      * cbn in Hres. assert (rv w = -1) by lia.
        replace (rv w) with (-1) in Hres by lia. discriminate.
    + replace (0 <=? rv w) with true by (symmetry; apply Z.leb_le; lia).
      rewrite IH; try assumption.
      * rewrite firstn_then_skipn. f_equal. lia.
      * rewrite length_skipn. lia.
  - cbn. replace (Z.to_nat count) with O by lia. reflexivity.
Qed.

Lemma writeall_result_codes ws : forall fd buf count g v,
  Forall write_conforms (trace (writeall ws fd buf count g)) ->
  result (writeall ws fd buf count g) = Ret v -> v = 0 \/ v = -1.
Proof.
  induction ws as [|w ws IH]; intros fd buf count g v Hc Hres; cbn in *;
    destruct (count >? 0); try discriminate;
    try (injection Hres as <-; now left).
  rewrite bind_emit in *; cbn in *.
  inversion Hc as [|e tl Hw Htl]; subst. cbn in Hw.
  destruct (Z.ltb_spec (rv w) 0) as [Hneg|Hnn].
  - destruct (errno w =? EINTR).
    + eapply IH; eassumption.
    + cbn in Hres. injection Hres as <-. right.
      replace (rv w) with (-1) by lia. reflexivity.
  - eapply IH; eassumption.
Qed.

(** A [write] that takes everything at once ends [writeall] with 0. *)
Lemma writeall_one_call (ws : list sysret) (fd : Z) (buf : list Byte.byte)
    (count : Z) (g : globals) :
  0 < count ->
  writeall (mk_sysret count 0 :: ws) fd buf count g =
  mk_run (Ret 0) g [WriteFd fd buf count count].
Proof.
  intros Hpos. cbn [writeall rv errno].
  replace (count >? 0) with true by (symmetry; apply Z.gtb_lt; lia).
  rewrite bind_emit.
  replace (count <? 0) with false by (symmetry; apply Z.ltb_ge; lia).
  rewrite Z.sub_diag. destruct ws; reflexivity.
Qed.

(** C6. [writeall] calls [write] again, with the same pointer and count,
    after a call that failed with [EINTR]; a [write] that fails with any
    other error makes it return the non-zero code [-1]; its only results
    are [0] and [-1]; and when it returns [0] the bytes handed to the
    descriptor are exactly the first [count] bytes of the buffer, for
    every script of partial, interrupted and failed writes. *)
Theorem writeall_contract (ws : list sysret) (fd : Z) (buf : list Byte.byte)
    (count : Z) (g : globals) (w : sysret) :
  Forall write_conforms (trace (writeall ws fd buf count g)) ->
  count <= Z.of_nat (List.length buf) ->
  (0 < count -> rv w < 0 -> errno w = EINTR ->
     writeall (w :: ws) fd buf count g =
     mk_run (result (writeall ws fd buf count g)) g
            (WriteFd fd buf count (rv w) :: trace (writeall ws fd buf count g)))
  /\ (0 < count -> rv w = -1 -> errno w <> EINTR ->
        result (writeall (w :: ws) fd buf count g) = Ret (-1))
  /\ (forall v, result (writeall ws fd buf count g) = Ret v -> v = 0 \/ v = -1)
  /\ (result (writeall ws fd buf count g) = Ret 0 ->
        written fd (trace (writeall ws fd buf count g)) =
        firstn (Z.to_nat count) buf).
Proof.
  intros Hc Hlen. repeat split.
  - intros Hpos Hneg Hint. cbn.
    replace (count >? 0) with true by (symmetry; apply Z.gtb_lt; lia).
    rewrite bind_emit.
    replace (rv w <? 0) with true by (symmetry; apply Z.ltb_lt; lia).
    rewrite Hint, Z.eqb_refl. now rewrite writeall_globals.
  - intros Hpos Hrv Herr. cbn.
    replace (count >? 0) with true by (symmetry; apply Z.gtb_lt; lia).
    rewrite bind_emit, Hrv. cbn.
    apply Z.eqb_neq in Herr. now rewrite Herr.
  - intros v Hv. eapply writeall_result_codes; eassumption.
  - intros Hres. now apply writeall_all_written.
Qed.

(** ** Window size *)

Lemma resize_pty_run (rz : resize_env) (pty : Z) (g : globals) :
  resize_pty rz pty g =
  mk_run (Ret tt) g
    (GetWinsize 0 ::
     match rz_get rz with
     | Some sz => [SetWinsize pty sz]
     | None =>
         SetWinsize pty (mk_winsize 30 80 640 480) ::
         (if rz_set rz <? 0 then [Stderr "Cannot set terminal size\n"] else [])
     end).
Proof.
  unfold resize_pty. rewrite bind_emit.
  destruct (rz_get rz); cbn; [reflexivity|].
  destruct (rz_set rz <? 0); reflexivity.
Qed.

Lemma service_winch_run (rz : resize_env) (pty : Z) (g : globals) :
  service_winch rz pty g =
  mk_run (Ret tt) (mk_globals (verbose g) 0)
    (if winch_happened g =? 0 then [] else trace (resize_pty rz pty g)).
Proof.
  unfold service_winch. rewrite bind_get.
  destruct (Z.eqb_spec (winch_happened g) 0) as [E|E].
  - destruct g; cbn in *; subst; reflexivity.
  - rewrite bind_put, !resize_pty_run. reflexivity.
Qed.

Lemma deliver_winch_run (n : nat) : forall g,
  deliver_winch n g =
  mk_run (Ret tt)
    (mk_globals (verbose g)
       match n with O => winch_happened g | S _ => 1 end) [].
Proof.
  induction n as [|n IH]; intros g; cbn.
  - destruct g; reflexivity.
  - unfold bind; cbn. rewrite IH. cbn. destruct n; reflexivity.
Qed.

(** ** The relay *)

Lemma copy_event_no_resize (e : event) : copy_event e -> no_resize_event e.
Proof. destruct e; cbn; tauto. Qed.

Lemma copy_event_relay (e : event) : copy_event e -> relay_event e.
Proof. destruct e; cbn; tauto. Qed.

Lemma writeall_trace ws : forall fd buf count g,
  Forall copy_event (trace (writeall ws fd buf count g)).
Proof.
  induction ws as [|w ws IH]; intros fd buf count g; cbn;
    destruct (count >? 0); cbn; try constructor.
  - exact I.
  - destruct (rv w <? 0); [destruct (errno w =? EINTR)|]; cbn; auto.
Qed.

Lemma writeall_result ws : forall fd buf count g,
  (exists v, result (writeall ws fd buf count g) = Ret v)
  \/ result (writeall ws fd buf count g) = Halt Unfinished.
Proof.
  induction ws as [|w ws IH]; intros fd buf count g; cbn;
    destruct (count >? 0); cbn; eauto.
  destruct (rv w <? 0); [destruct (errno w =? EINTR)|]; cbn; eauto.
Qed.

Lemma relay_local_after r pty buf g : after (relay_local r pty buf g) = g.
Proof.
  unfold relay_local. destruct (w_ready (r_wait r) 0); [|reflexivity].
  rewrite bind_emit; cbn. destruct (rd_count (r_read0 r) <? 0); [reflexivity|].
  rewrite after_bind, writeall_globals.
  destruct (result (writeall _ _ _ _ _)); reflexivity.
Qed.

Lemma relay_target_after r pty buf g : after (relay_target r pty buf g) = g.
Proof.
  unfold relay_target. destruct (w_ready (r_wait r) pty); [|reflexivity].
  rewrite bind_emit; cbn. destruct (rd_count (r_readpty r) <=? 0); [reflexivity|].
  rewrite after_bind, writeall_globals.
  destruct (result (writeall _ _ _ _ _)); reflexivity.
Qed.

Lemma relay_local_trace r pty buf g :
  Forall copy_event (trace (relay_local r pty buf g)).
Proof.
  unfold relay_local. destruct (w_ready (r_wait r) 0); [|constructor].
  rewrite bind_emit; cbn. constructor; [exact I|].
  destruct (rd_count (r_read0 r) <? 0); [constructor|].
  rewrite trace_bind. apply Forall_app. split; [apply writeall_trace|].
  destruct (result (writeall _ _ _ _ _)); constructor.
Qed.

Lemma relay_target_trace r pty buf g :
  Forall copy_event (trace (relay_target r pty buf g)).
Proof.
  unfold relay_target. destruct (w_ready (r_wait r) pty); [|constructor].
  rewrite bind_emit; cbn. constructor; [exact I|].
  destruct (rd_count (r_readpty r) <=? 0); [constructor|].
  rewrite trace_bind. apply Forall_app. split; [apply writeall_trace|].
  destruct (result (writeall _ _ _ _ _)); constructor.
Qed.

(** The loop body after its top: the wait and the two copies. *)
Lemma proxy_iteration_run (pty : Z) (r : round) (buf : list Byte.byte)
    (g : globals) :
  exists tail,
    proxy_iteration pty r buf g =
    mk_run (result (proxy_iteration pty r buf g))
      (mk_globals (verbose g)
         match w_signals (r_wait r) with O => 0 | S _ => 1 end)
      ((if winch_happened g =? 0 then []
        else trace (resize_pty (r_resize r) pty g))
       ++ Pselect (pty + 1) :: tail)%list
    /\ Forall copy_event tail.
Proof.
  unfold proxy_iteration.
  set (rest := (deliver_winch _ ;; _)).
  set (g1 := mk_globals (verbose g) 0).
  exists (trace (rest g1)). split.
  - rewrite <- (run_eta (bind _ _ g)) at 1. f_equal.
    + rewrite after_bind, service_winch_run. cbn.
      unfold rest. rewrite after_bind, deliver_winch_run. cbn.
      destruct (rv (w_ret (r_wait r)) <? 0).
      * destruct (errno (w_ret (r_wait r)) =? EINTR); reflexivity.
      * rewrite after_bind, relay_local_after.
        destruct (result (relay_local _ _ _ _)) as [[b|]|]; try reflexivity.
        now rewrite relay_target_after.
    + rewrite trace_bind, service_winch_run. cbn. reflexivity.
  - unfold rest. rewrite trace_bind, deliver_winch_run. cbn.
    destruct (rv (w_ret (r_wait r)) <? 0).
    + destruct (errno (w_ret (r_wait r)) =? EINTR); repeat constructor.
    + rewrite trace_bind. apply Forall_app. split; [apply relay_local_trace|].
      rewrite relay_local_after.
      destruct (result (relay_local _ _ _ _)) as [[b|]|]; try constructor.
      apply relay_target_trace.
Qed.

(** C8. The handler's whole effect is to set the flag: it returns at
    once, changes nothing else and makes no system call.  In one pass of
    the loop the flag is cleared and the size propagated before the
    wait, and only there: what follows the [pselect] contains no size
    call, and the flag after the pass is set exactly when the handler ran
    during the wait.  The copying code leaves the flag alone. *)
Theorem resize_flag_protocol (pty : Z) (r : round) (buf : list Byte.byte)
    (g : globals) (signal : Z) :
  do_winch signal g = mk_run (Ret tt) (mk_globals (verbose g) 1) []
  /\ service_winch (r_resize r) pty g =
       mk_run (Ret tt) (mk_globals (verbose g) 0)
         (if winch_happened g =? 0 then []
          else trace (resize_pty (r_resize r) pty g))
  /\ (exists tail,
       trace (proxy_iteration pty r buf g) =
         ((if winch_happened g =? 0 then []
           else trace (resize_pty (r_resize r) pty g))
          ++ Pselect (pty + 1) :: tail)%list
       /\ Forall no_resize_event tail)
  /\ winch_happened (after (proxy_iteration pty r buf g)) =
       match w_signals (r_wait r) with O => 0 | S _ => 1 end
  /\ after (relay_local r pty buf g) = g
  /\ after (relay_target r pty buf g) = g
  /\ after (resize_pty (r_resize r) pty g) = g.
Proof.
  destruct (proxy_iteration_run pty r buf g) as [tail [Hrun Htail]].
  split; [reflexivity|].
  split; [apply service_winch_run|].
  split.
  { exists tail. split; [now rewrite Hrun|].
    eapply Forall_impl; [apply copy_event_no_resize|exact Htail]. }
  split; [now rewrite Hrun|].
  split; [apply relay_local_after|].
  split; [apply relay_target_after|].
  now rewrite resize_pty_run.
Qed.

Lemma writeall_any_globals ws : forall fd buf count g g',
  writeall ws fd buf count g =
  mk_run (result (writeall ws fd buf count g')) g
         (trace (writeall ws fd buf count g')).
Proof.
  induction ws as [|w ws IH]; intros fd buf count g g'; cbn;
    destruct (count >? 0); try reflexivity.
  rewrite !bind_emit.
  destruct (rv w <? 0); [destruct (errno w =? EINTR)|]; cbn;
    try reflexivity; now rewrite (IH _ _ _ g g').
Qed.

Lemma relay_local_result r pty buf g f :
  result (relay_local r pty buf g) = Ret f ->
  (f = Return /\ w_ready (r_wait r) 0 = true /\ rd_count (r_read0 r) < 0)
  \/ (exists b, f = Continue b).
Proof.
  unfold relay_local. destruct (w_ready (r_wait r) 0).
  - rewrite bind_emit; cbn.
    destruct (Z.ltb_spec (rd_count (r_read0 r)) 0) as [Hc|Hc]; cbn.
    + intros [= <-]. left. auto.
    + rewrite result_bind.
      destruct (result (writeall _ _ _ _ _)); cbn; [|discriminate].
      intros [= <-]. right. eauto.
  - cbn. intros [= <-]. right. eauto.
Qed.

Lemma relay_target_result r pty buf g :
  result (relay_target r pty buf g) = Ret Return ->
  w_ready (r_wait r) pty = true /\ rd_count (r_readpty r) <= 0.
Proof.
  unfold relay_target. destruct (w_ready (r_wait r) pty).
  - rewrite bind_emit; cbn.
    destruct (Z.leb_spec (rd_count (r_readpty r)) 0) as [Hc|Hc]; cbn.
    + auto.
    + rewrite result_bind.
      destruct (result (writeall _ _ _ _ _)); cbn; discriminate.
  - cbn. discriminate.
Qed.

(** The result of a pass, with the top of the loop and the wait done. *)
Lemma proxy_iteration_result (pty : Z) (r : round) (buf : list Byte.byte)
    (g : globals) :
  result (proxy_iteration pty r buf g) =
  let g' := mk_globals (verbose g)
              match w_signals (r_wait r) with O => 0 | S _ => 1 end in
  if rv (w_ret (r_wait r)) <? 0 then
    if errno (w_ret (r_wait r)) =? EINTR then Ret (Continue buf)
    else Ret Return
  else
    match result (relay_local r pty buf g') with
    | Ret Return => Ret Return
    | Ret (Continue buf1) => result (relay_target r pty buf1 g')
    | Halt o => Halt o
    end.
Proof.
  unfold proxy_iteration.
  rewrite result_bind, service_winch_run. cbn.
  rewrite result_bind, deliver_winch_run. cbn.
  destruct (rv (w_ret (r_wait r)) <? 0).
  - destruct (errno (w_ret (r_wait r)) =? EINTR); reflexivity.
  - rewrite result_bind, relay_local_after.
    destruct (result (relay_local _ _ _ _)) as [[b|]|]; reflexivity.
Qed.

Lemma proxy_iteration_return (pty : Z) (r : round) (buf : list Byte.byte)
    (g : globals) :
  result (proxy_iteration pty r buf g) = Ret Return ->
  wait_error r \/ local_read_failure r \/ target_read_end pty r.
Proof.
  rewrite proxy_iteration_result. cbv zeta.
  unfold wait_error, local_read_failure, target_read_end.
  destruct (Z.ltb_spec (rv (w_ret (r_wait r))) 0) as [Hw|Hw].
  - destruct (Z.eqb_spec (errno (w_ret (r_wait r))) EINTR); [discriminate|].
    intros _. left. auto.
  - destruct (result (relay_local _ _ _ _)) as [f|o] eqn:El; [|discriminate].
    apply relay_local_result in El as [[-> Hl]|[b ->]].
    + intros _. right. left. tauto.
    + intros Ht. apply relay_target_result in Ht. right. right. tauto.
Qed.

(** A pass that reaches the closing brace or a [continue] is followed
    by the next pass, on the buffer and the globals it has left. *)
Lemma proxy_loop_continue (pty : Z) (r : round) (rs : list round)
    (b b' : list Byte.byte) (g : globals) :
  result (proxy_iteration pty r b g) = Ret (Continue b') ->
  result (proxy_loop pty (r :: rs) b g) =
  result (proxy_loop pty rs b' (after (proxy_iteration pty r b g)))
  /\ trace (proxy_loop pty (r :: rs) b g) =
     (trace (proxy_iteration pty r b g) ++
      trace (proxy_loop pty rs b' (after (proxy_iteration pty r b g))))%list.
Proof.
  intros H. cbn [proxy_loop]. rewrite result_bind, trace_bind, H.
  split; reflexivity.
Qed.

(** A pass with a successful wait in which neither read shows a cause
    reaches the closing brace, whatever the two [writeall]s return. *)
Lemma proxy_iteration_goes_on (pty : Z) (r : round) (b : list Byte.byte)
    (g : globals) :
  0 <= rv (w_ret (r_wait r)) ->
  ~ local_read_failure r -> ~ target_read_end pty r ->
  (w_ready (r_wait r) 0 = true ->
   exists v, result (writeall (r_write_pty r) pty (read_into b (r_read0 r))
                       (rd_count (r_read0 r)) g) = Ret v) ->
  (w_ready (r_wait r) pty = true ->
   exists v, result (writeall (r_write_out r) 1
                       (read_into (local_buffer r b) (r_readpty r))
                       (rd_count (r_readpty r)) g) = Ret v) ->
  result (proxy_iteration pty r b g) = Ret (Continue (pass_buffer pty r b)).
Proof.
  intros Hrv Hl Ht Hw0 Hw1. rewrite proxy_iteration_result. cbv zeta.
  replace (rv (w_ret (r_wait r)) <? 0) with false
    by (symmetry; apply Z.ltb_ge; lia).
  set (g1 := mk_globals _ _).
  assert (El : result (relay_local r pty b g1) =
               Ret (Continue (local_buffer r b))).
  { unfold relay_local, local_buffer.
    destruct (w_ready (r_wait r) 0) eqn:E0; [|reflexivity].
    rewrite bind_emit. cbn [result].
    destruct (Z.ltb_spec (rd_count (r_read0 r)) 0) as [Hc|Hc];
      [exfalso; apply Hl; unfold local_read_failure; auto|].
    destruct (Hw0 eq_refl) as [v Hv].
    rewrite result_bind, (writeall_any_globals _ _ _ _ _ g), Hv.
    reflexivity. }
  rewrite El. unfold relay_target, pass_buffer.
  destruct (w_ready (r_wait r) pty) eqn:E1; [|reflexivity].
  rewrite bind_emit. cbn [result].
  destruct (Z.leb_spec (rd_count (r_readpty r)) 0) as [Hc|Hc];
    [exfalso; apply Ht; unfold target_read_end; auto|].
  destruct (Hw1 eq_refl) as [v Hv].
  rewrite result_bind, (writeall_any_globals _ _ _ _ _ g), Hv.
  reflexivity.
Qed.

(** C7. A pass of the loop reaches a [return] only on a wait error other
    than [EINTR], on a failed read of the local side, or on a read of the
    target that fails or finds its end; so the loop, when it ends, ends
    in a round showing one of the three, each of which is one of the
    three causes of the claim (its local cause, failure or end of file,
    includes the failed read).  After a wait that fails with [EINTR] the
    loop goes round again: the pass leaves the buffer as it was and the
    loop goes on with the rounds that follow.  After a successful wait
    in which neither read shows a cause, whatever value each [writeall]
    returns, towards the target or towards the local output and with
    either or both descriptors ready, the pass reaches the end of the
    body and the loop goes on with the rounds that follow. *)
Theorem relay_exit_causes (pty : Z) (rounds : list round)
    (buf : list Byte.byte) (g : globals) :
  result (proxy_loop pty rounds buf g) = Ret tt ->
  (exists r, In r rounds /\
     (wait_error r \/ local_read_failure r \/ target_read_end pty r) /\
     (wait_error r \/ local_read_end r \/ target_read_end pty r))
  /\ (forall r rs b g', rv (w_ret (r_wait r)) < 0 ->
        errno (w_ret (r_wait r)) = EINTR ->
        result (proxy_iteration pty r b g') = Ret (Continue b)
        /\ result (proxy_loop pty (r :: rs) b g') =
           result (proxy_loop pty rs b (after (proxy_iteration pty r b g')))
        /\ trace (proxy_loop pty (r :: rs) b g') =
           (trace (proxy_iteration pty r b g') ++
            trace (proxy_loop pty rs b
                     (after (proxy_iteration pty r b g'))))%list)
  /\ (forall r rs b g', 0 <= rv (w_ret (r_wait r)) ->
        ~ local_read_failure r -> ~ target_read_end pty r ->
        (w_ready (r_wait r) 0 = true ->
         exists v,
           result (writeall (r_write_pty r) pty (read_into b (r_read0 r))
                     (rd_count (r_read0 r)) g') = Ret v) ->
        (w_ready (r_wait r) pty = true ->
         exists v,
           result (writeall (r_write_out r) 1
                     (read_into (local_buffer r b) (r_readpty r))
                     (rd_count (r_readpty r)) g') = Ret v) ->
        result (proxy_iteration pty r b g') =
        Ret (Continue (pass_buffer pty r b))
        /\ result (proxy_loop pty (r :: rs) b g') =
           result (proxy_loop pty rs (pass_buffer pty r b)
                     (after (proxy_iteration pty r b g')))
        /\ trace (proxy_loop pty (r :: rs) b g') =
           (trace (proxy_iteration pty r b g') ++
            trace (proxy_loop pty rs (pass_buffer pty r b)
                     (after (proxy_iteration pty r b g'))))%list).
Proof.
  intros Hloop. split; [|split].
  - revert buf g Hloop.
    induction rounds as [|r rs IH]; intros buf g Hloop; cbn in Hloop.
    + discriminate.
    + rewrite result_bind in Hloop.
      destruct (result (proxy_iteration pty r buf g)) as [[b|]|o] eqn:Ei;
        try discriminate.
      * apply IH in Hloop as [r' [Hin Hc]]. exists r'.
        split; [now right|exact Hc].
      * exists r. split; [now left|].
        pose proof (proxy_iteration_return pty r buf g Ei) as Hc.
        split; [exact Hc|].
        destruct Hc as [Hc|[Hc|Hc]]; [now left| |now right; right].
        right. left. unfold local_read_failure in Hc.
        unfold local_read_end. intuition lia.
  - intros r rs b g' Hrv Herr.
    assert (Hit : result (proxy_iteration pty r b g') = Ret (Continue b)).
    { rewrite proxy_iteration_result. cbv zeta.
      replace (rv (w_ret (r_wait r)) <? 0) with true
        by (symmetry; apply Z.ltb_lt; lia).
      now rewrite Herr, Z.eqb_refl. }
    split; [exact Hit|]. now apply proxy_loop_continue.
  - intros r rs b g' Hrv Hl Ht Hw0 Hw1.
    pose proof (proxy_iteration_goes_on pty r b g' Hrv Hl Ht Hw0 Hw1) as Hit.
    split; [exact Hit|]. now apply proxy_loop_continue.
Qed.

(** C2. A read of the local side that returns zero does not end the
    session: nothing is written, the pass goes on to the target side,
    and with the target silent the loop goes round again, for as many
    rounds as the local side stays at its end.  Only a negative result
    of that read reaches the [return]; the target side returns on zero
    as well. *)
Theorem local_eof_keeps_relaying (pty : Z) (r : round)
    (buf : list Byte.byte) (g : globals) :
  0 <= rv (w_ret (r_wait r)) ->
  w_ready (r_wait r) 0 = true ->
  w_ready (r_wait r) pty = false ->
  (rd_count (r_read0 r) = 0 ->
     result (proxy_iteration pty r buf g) = Ret (Continue buf)
     /\ forall n, result (proxy_loop pty (repeat r n) buf g) = Halt Unfinished)
  /\ (rd_count (r_read0 r) < 0 ->
        result (proxy_iteration pty r buf g) = Ret Return).
Proof.
  intros Hrv H0 Hp.
  assert (Hiter : forall g', rd_count (r_read0 r) = 0 ->
            result (proxy_iteration pty r buf g') = Ret (Continue buf)).
  { intros g' Hc. rewrite proxy_iteration_result. cbv zeta.
    replace (rv (w_ret (r_wait r)) <? 0) with false
      by (symmetry; apply Z.ltb_ge; lia).
    unfold relay_local, read_into. rewrite H0, bind_emit, Hc. cbn.
    rewrite result_bind.
    destruct (r_write_pty r); cbn; unfold relay_target; now rewrite Hp. }
  split.
  - intros Hc. split; [now apply Hiter|].
    intros n. revert g. induction n as [|n IH]; intros g; cbn.
    + reflexivity.
    + rewrite result_bind, Hiter by assumption. apply IH.
  - intros Hc. rewrite proxy_iteration_result. cbv zeta.
    replace (rv (w_ret (r_wait r)) <? 0) with false
      by (symmetry; apply Z.ltb_ge; lia).
    unfold relay_local. rewrite H0, bind_emit. cbn.
    replace (rd_count (r_read0 r) <? 0) with true
      by (symmetry; apply Z.ltb_lt; lia).
    reflexivity.
Qed.

(** C5, as amended.  When the size query fails, [resize_pty] applies to
    the target 30 rows by 80 columns with pixel dimensions 640 by 480,
    logs a failure to apply it and returns normally; this is what the
    relay does at its start and at the top of every pass that finds the
    flag set. *)
Theorem resize_fallback_size (rz : resize_env) (pty : Z) (g : globals) :
  rz_get rz = None ->
  resize_pty rz pty g = mk_run (Ret tt) g (fallback_events rz pty)
  /\ (forall px, px_resize px = rz -> px_sigprocmask px <> -1 ->
        exists tail,
          trace (do_proxy px pty g) =
          (Sigprocmask :: Sigaction :: fallback_events rz pty ++ tail)%list)
  /\ (forall r buf, r_resize r = rz -> winch_happened g <> 0 ->
        exists tail,
          trace (proxy_iteration pty r buf g) =
          (fallback_events rz pty ++ Pselect (pty + 1) :: tail)%list).
Proof.
  intros Hget.
  assert (Hrun : forall g', resize_pty rz pty g' =
                            mk_run (Ret tt) g' (fallback_events rz pty)).
  { intros g'. rewrite resize_pty_run, Hget. reflexivity. }
  split; [apply Hrun|split].
  - intros px Hpx Hsig. unfold do_proxy. rewrite bind_emit. cbn.
    apply Z.eqb_neq in Hsig. rewrite Hsig, bind_emit. cbn.
    rewrite trace_bind, Hpx, Hrun. cbn. eexists. reflexivity.
  - intros r buf Hr Hflag.
    destruct (proxy_iteration_run pty r buf g) as [tail [Hrun' _]].
    exists tail. rewrite Hrun'. cbn [trace].
    apply Z.eqb_neq in Hflag. now rewrite Hflag, Hr, Hrun.
Qed.

(** C5, the claim as written fails: with the size query failing, the
    size applied to target 5 is not 30 by 80 with zero pixels. *)
Lemma resize_fallback_zero_pixels_refuted :
  ~ In (SetWinsize 5 (mk_winsize 30 80 0 0))
       (trace (resize_pty (mk_resize_env None 0) 5 initial_globals)).
Proof. cbn. intros [H|[H|[]]]; discriminate. Qed.

(** ** The session: raw mode, relay, restore *)

Lemma resize_pty_trace rz pty g : Forall relay_event (trace (resize_pty rz pty g)).
Proof.
  rewrite resize_pty_run. cbn.
  destruct (rz_get rz); [|destruct (rz_set rz <? 0)]; repeat constructor.
Qed.

Lemma proxy_iteration_trace pty r buf g :
  Forall relay_event (trace (proxy_iteration pty r buf g)).
Proof.
  destruct (proxy_iteration_run pty r buf g) as [tail [-> Htail]]. cbn.
  apply Forall_app. split.
  - destruct (winch_happened g =? 0); [constructor|apply resize_pty_trace].
  - constructor; [exact I|].
    eapply Forall_impl; [apply copy_event_relay|exact Htail].
Qed.

Lemma proxy_loop_trace pty rounds : forall buf g,
  Forall relay_event (trace (proxy_loop pty rounds buf g)).
Proof.
  induction rounds as [|r rs IH]; intros buf g; cbn; [constructor|].
  rewrite trace_bind. apply Forall_app. split; [apply proxy_iteration_trace|].
  destruct (result (proxy_iteration pty r buf g)) as [[b|]|]; cbn;
    try constructor. apply IH.
Qed.

Lemma do_proxy_trace px pty g : Forall relay_event (trace (do_proxy px pty g)).
Proof.
  unfold do_proxy. rewrite bind_emit. cbn. constructor; [exact I|].
  destruct (px_sigprocmask px =? -1); [repeat constructor|].
  rewrite bind_emit. cbn. constructor; [exact I|].
  rewrite trace_bind. apply Forall_app. split; [apply resize_pty_trace|].
  rewrite resize_pty_run. cbn [result after]. apply proxy_loop_trace.
Qed.

Lemma setup_raw_after te save g : after (setup_raw te save g) = g.
Proof.
  unfold setup_raw. rewrite bind_emit. cbn.
  destruct (t_get te); [|reflexivity].
  rewrite bind_emit. cbn. destruct (t_set te <? 0); reflexivity.
Qed.

Lemma restore_loop_run (saved : termios) (g : globals) (final : sysret)
    (rest : list sysret) :
  forall pre,
  Forall interrupted pre -> ~ interrupted final ->
  restore_loop (pre ++ final :: rest) saved g =
  mk_run (if rv final =? 0 then Ret tt else Halt (Exit 1)) g
    (repeat (Tcsetattr 0 saved) (S (List.length pre)) ++
     (if rv final =? 0 then [] else [Stderr "[!] Unable to tcsetattr: %m"]))%list.
Proof.
  unfold interrupted. intros pre Hpre Hfin.
  induction Hpre as [|a pre Ha Hpre IH]; cbn [app restore_loop List.length].
  - rewrite bind_emit. apply Z.eqb_neq in Hfin. rewrite Hfin. cbn.
    destruct (rv final =? 0); reflexivity.
  - rewrite bind_emit, Ha, Z.eqb_refl, andb_false_r, IH. reflexivity.
Qed.

Lemma restore_loop_trace (saved : termios) : forall answers g e,
  In e (trace (restore_loop answers saved g)) ->
  e = Tcsetattr 0 saved \/ exists msg, e = Stderr msg.
Proof.
  induction answers as [|a rest IH]; intros g e; cbn [restore_loop];
    [cbn; tauto|].
  rewrite bind_emit. cbn [trace]. intros [<-|Hin]; [now left|].
  destruct (negb (rv a =? 0) && negb (errno a =? EINTR)).
  - cbn in Hin. destruct Hin as [<-|[]]. right. eauto.
  - destruct (errno a =? EINTR); [eauto|contradiction].
Qed.

Lemma restore_loop_first (saved : termios) (a : sysret) (rest : list sysret)
    (g : globals) :
  In (Tcsetattr 0 saved) (trace (restore_loop (a :: rest) saved g)).
Proof. cbn [restore_loop]. rewrite bind_emit. now left. Qed.

(** The session once [setup_raw] and [do_proxy] have returned. *)
Lemma relay_session_restore (e : env) (pty : Z) (g : globals) (saved : termios) :
  result (setup_raw (e_raw e) (e_junk_termios e) g) = Ret saved ->
  result (do_proxy (e_proxy e) pty g) = Ret tt ->
  let g' := after (do_proxy (e_proxy e) pty g) in
  relay_session e pty g =
  mk_run
    match result (restore_loop (e_restore e) saved g') with
    | Ret _ => Ret 0
    | Halt o => Halt o
    end
    (after (restore_loop (e_restore e) saved g'))
    (trace (setup_raw (e_raw e) (e_junk_termios e) g) ++
     trace (do_proxy (e_proxy e) pty g) ++
     trace (restore_loop (e_restore e) saved g'))%list.
Proof.
  intros Hs Hp g'. unfold relay_session.
  rewrite (bind_result_ret _ _ _ _ Hs), setup_raw_after. cbn [result after trace].
  rewrite (bind_result_ret _ _ _ _ Hp). cbn [result after trace]. fold g'.
  unfold bind at 1 2 3.
  destruct (restore_loop (e_restore e) saved g') as [[[]|o] g2 tr]; cbn;
    now rewrite ?app_nil_r.
Qed.

(** C1. Once the relay has returned, for whatever reason, the saved
    attributes are applied again: each interrupted attempt is followed by
    another one, and the first attempt that is not interrupted decides:
    if it succeeded [main] returns 0, and if it failed the process dies
    with status 1.  Nothing in the outcome depends on how the relay
    ended. *)
Theorem session_teardown (e : env) (pty : Z) (g : globals) (saved : termios)
    (pre : list sysret) (final : sysret) (rest : list sysret) :
  result (setup_raw (e_raw e) (e_junk_termios e) g) = Ret saved ->
  result (do_proxy (e_proxy e) pty g) = Ret tt ->
  e_restore e = (pre ++ final :: rest)%list ->
  Forall interrupted pre ->
  ~ interrupted final ->
  result (relay_session e pty g) =
    (if rv final =? 0 then Ret 0 else Halt (Exit 1))
  /\ trace (relay_session e pty g) =
       (trace (setup_raw (e_raw e) (e_junk_termios e) g) ++
        trace (do_proxy (e_proxy e) pty g) ++
        repeat (Tcsetattr 0 saved) (S (List.length pre)) ++
        (if rv final =? 0 then []
         else [Stderr "[!] Unable to tcsetattr: %m"]))%list.
Proof.
  intros Hs Hp Hr Hpre Hfin.
  rewrite (relay_session_restore e pty g saved Hs Hp). cbv zeta.
  rewrite Hr, restore_loop_run by assumption. cbn [result after trace].
  split; [|reflexivity].
  destruct (rv final =? 0); reflexivity.
Qed.

(** C10. When [tcgetattr] fails, [setup_raw] leaves [*save] as it found
    it, makes no [tcsetattr] call and returns, and the session goes on:
    its trace is the two events of [setup_raw], then the whole of
    [do_proxy], which starts with its [sigprocmask], on the same master
    and globals, then, once [do_proxy] has returned, the restore loop
    with the untouched value; its result is that of the restore.  So
    every [tcsetattr] of the session is a restore call with that
    value, and one is made as soon as the relay returns. *)
Theorem unread_snapshot_is_restored (e : env) (pty : Z) (g : globals) :
  t_get (e_raw e) = None ->
  (forall save,
     setup_raw (e_raw e) save g =
     mk_run (Ret save) g
       [Tcgetattr 0; Stderr "Unable to read terminal attributes: %m"])
  /\ trace (relay_session e pty g) =
     ([Tcgetattr 0; Stderr "Unable to read terminal attributes: %m"] ++
      trace (do_proxy (e_proxy e) pty g) ++
      match result (do_proxy (e_proxy e) pty g) with
      | Ret _ => trace (restore_loop (e_restore e) (e_junk_termios e)
                          (after (do_proxy (e_proxy e) pty g)))
      | Halt _ => []
      end)%list
  /\ result (relay_session e pty g) =
     match result (do_proxy (e_proxy e) pty g) with
     | Ret _ =>
         match result (restore_loop (e_restore e) (e_junk_termios e)
                         (after (do_proxy (e_proxy e) pty g))) with
         | Ret _ => Ret 0
         | Halt o => Halt o
         end
     | Halt o => Halt o
     end
  /\ (exists tail,
        trace (relay_session e pty g) =
        Tcgetattr 0 :: Stderr "Unable to read terminal attributes: %m" ::
        Sigprocmask :: tail)
  /\ (forall fd t, In (Tcsetattr fd t) (trace (relay_session e pty g)) ->
        fd = 0 /\ t = e_junk_termios e)
  /\ (forall a rest, result (do_proxy (e_proxy e) pty g) = Ret tt ->
        e_restore e = a :: rest ->
        In (Tcsetattr 0 (e_junk_termios e)) (trace (relay_session e pty g))).
Proof.
  intros Hget.
  assert (Hsetup : forall save,
            setup_raw (e_raw e) save g =
            mk_run (Ret save) g
              [Tcgetattr 0; Stderr "Unable to read terminal attributes: %m"]).
  { intros save. unfold setup_raw. rewrite bind_emit, Hget. reflexivity. }
  split; [exact Hsetup|].
  assert (Hsession : trace (relay_session e pty g) =
            ([Tcgetattr 0; Stderr "Unable to read terminal attributes: %m"] ++
             trace (do_proxy (e_proxy e) pty g) ++
             match result (do_proxy (e_proxy e) pty g) with
             | Ret _ => trace (restore_loop (e_restore e) (e_junk_termios e)
                                 (after (do_proxy (e_proxy e) pty g)))
             | Halt _ => []
             end)%list).
  { unfold relay_session. rewrite trace_bind, Hsetup. cbn [result after trace].
    f_equal. rewrite trace_bind. f_equal.
    destruct (result (do_proxy (e_proxy e) pty g)); [|reflexivity].
    rewrite trace_bind.
    destruct (result (restore_loop _ _ _)); cbn; now rewrite app_nil_r. }
  split; [exact Hsession|].
  split.
  { unfold relay_session. rewrite result_bind, Hsetup. cbn [result after].
    rewrite result_bind.
    destruct (result (do_proxy (e_proxy e) pty g)); [|reflexivity].
    rewrite result_bind.
    destruct (result (restore_loop _ _ _)); reflexivity. }
  split.
  { rewrite Hsession. unfold do_proxy at 1. rewrite bind_emit.
    cbn [trace app]. eexists. reflexivity. }
  split.
  - intros fd t Hin. rewrite Hsession in Hin.
    apply in_app_or in Hin as [Hin|Hin].
    { cbn in Hin. destruct Hin as [H|[H|[]]]; discriminate. }
    apply in_app_or in Hin as [Hin|Hin].
    { pose proof (do_proxy_trace (e_proxy e) pty g) as Hall.
      rewrite Forall_forall in Hall. apply Hall in Hin. contradiction. }
    destruct (result (do_proxy (e_proxy e) pty g)); [|contradiction].
    apply restore_loop_trace in Hin as [Heq|[msg Heq]]; [|discriminate].
    injection Heq as -> ->. auto.
  - intros a rest Hp Hr. rewrite Hsession, Hp, Hr.
    apply in_or_app. right. apply in_or_app. right. apply restore_loop_first.
Qed.

(** ** The pid argument *)

Lemma code_range (c : ascii) : 0 <= code c < 256.
Proof.
  unfold code. pose proof (N_ascii_bounded c). lia.
Qed.

Lemma append_empty_r (s : string) : (s ++ EmptyString)%string = s.
Proof. induction s as [|c tl IH]; cbn; congruence. Qed.

Lemma skip_space_spec (s : string) :
  exists ws, s = (ws ++ skip_space s)%string /\ all_chars isspace ws = true.
Proof.
  induction s as [|c tl [ws [Heq Hws]]]; cbn.
  - exists EmptyString. auto.
  - destruct (isspace c) eqn:Hc.
    + exists (String c ws). cbn. rewrite Hc, Hws. split; [congruence|reflexivity].
    + exists EmptyString. auto.
Qed.

Lemma strtol_digits_spec (s : string) : forall acc,
  exists ds, s = (ds ++ snd (strtol_digits acc s))%string /\
             all_chars isdigit ds = true /\
             fst (strtol_digits acc s) = decimal_value acc ds.
Proof.
  induction s as [|c tl IH]; intros acc; cbn [strtol_digits].
  - exists EmptyString. auto.
  - destruct (isdigit c) eqn:Hc.
    + destruct (IH (10 * acc + (code c - 48))) as [ds [Heq [Hds Hval]]].
      exists (String c ds). cbn [all_chars decimal_value append].
      rewrite Hc, Hds. repeat split; [congruence|exact Hval].
    + exists EmptyString. auto.
Qed.

Lemma decimal_value_ge (ds : string) : forall acc,
  0 <= acc -> all_chars isdigit ds = true -> acc <= decimal_value acc ds.
Proof.
  induction ds as [|c tl IH]; intros acc Hacc Hds;
    cbn [all_chars decimal_value] in *; [lia|].
  apply andb_prop in Hds as [Hc Htl]. unfold isdigit in Hc.
  apply andb_prop in Hc as [Hlo Hhi]. apply Z.leb_le in Hlo, Hhi.
  specialize (IH (10 * acc + (code c - 48)) ltac:(lia) Htl). lia.
Qed.

Lemma is_cstring_app (a b : string) :
  is_cstring (a ++ b)%string -> is_cstring b.
Proof. induction a as [|c a IH]; cbn; tauto. Qed.

Lemma deref_end (s : string) : is_cstring s -> deref s = 0 -> s = EmptyString.
Proof. destruct s; cbn; [reflexivity|]. intros [H _] E. contradiction. Qed.

Lemma strtol_sign_spec (s : string) :
  exists sign, s = (sign ++ snd (strtol_sign s))%string /\
    ((sign = EmptyString /\ fst (strtol_sign s) = false) \/
     (sign = "+"%string /\ fst (strtol_sign s) = false) \/
     (sign = "-"%string /\ fst (strtol_sign s) = true)).
Proof.
  destruct s as [|c tl]; cbn.
  - exists EmptyString. auto.
  - destruct (Ascii.eqb_spec c "-") as [->|_].
    + exists "-"%string. cbn. auto.
    + destruct (Ascii.eqb_spec c "+") as [->|_].
      * exists "+"%string. cbn. auto.
      * exists EmptyString. cbn. auto.
Qed.

Lemma strtol_digits_length (s : string) : forall acc,
  (String.length (snd (strtol_digits acc s)) <= String.length s)%nat.
Proof.
  induction s as [|c tl IH]; intros acc; cbn [strtol_digits]; [cbn; lia|].
  destruct (isdigit c); cbn [snd String.length]; [|lia].
  specialize (IH (10 * acc + (code c - 48))). lia.
Qed.

Lemma starts_with_digit_nonempty (s : string) (acc : Z) :
  starts_with_digit s = true ->
  forall ds, s = (ds ++ snd (strtol_digits acc s))%string ->
  ds <> EmptyString.
Proof.
  destruct s as [|c tl]; cbn [starts_with_digit strtol_digits];
    [discriminate|].
  intros Hc ds. rewrite Hc. intros Heq ->. cbn [append] in Heq.
  apply (f_equal String.length) in Heq. cbn [String.length] in Heq.
  pose proof (strtol_digits_length tl (10 * acc + (code c - 48))). lia.
Qed.

Lemma parse_pid_cases (s : string) (g : globals) :
  (exists msg, parse_pid s g = mk_run (Halt (Exit 1)) g [Stderr msg])
  \/ (exists child, parse_pid s g = mk_run (Ret child) g []).
Proof.
  unfold parse_pid.
  destruct (st_errno (strtol s) =? ERANGE); [left; eexists; reflexivity|].
  destruct (negb (deref (st_endptr (strtol s)) =? 0));
    [left; eexists; reflexivity|].
  destruct ((to_int (st_value (strtol s)) <? st_value (strtol s))
            || (st_value (strtol s) <? 1));
    [left; eexists; reflexivity|right; eexists; reflexivity].
Qed.

(** The strings [main] accepts as a pid are those the spec describes. *)
Lemma parse_pid_accepts (s : string) (g : globals) (child : Z) :
  is_cstring s ->
  result (parse_pid s g) = Ret child ->
  valid_pid_string s.
Proof.
  intros Hcs. unfold parse_pid, strtol.
  destruct (skip_space_spec s) as [ws [Hs Hws]].
  destruct (strtol_sign_spec (skip_space s)) as [sign [Hsign Hcase]].
  destruct (strtol_sign (skip_space s)) as [neg s2]. cbn [fst snd] in *.
  destruct (starts_with_digit s2) eqn:Hd.
  - destruct (strtol_digits_spec s2 0) as [ds [Hds [Hall Hval]]].
    pose proof (starts_with_digit_nonempty s2 0 Hd ds Hds) as Hne.
    destruct (strtol_digits 0 s2) as [v rest]. cbn [fst snd] in *.
    pose proof (decimal_value_ge ds 0 ltac:(lia) Hall) as Hnn.
    set (t := if neg then - v else v).
    assert (Hrest : is_cstring rest).
    { rewrite Hs, Hsign, Hds in Hcs.
      now apply is_cstring_app, is_cstring_app, is_cstring_app in Hcs. }
    destruct (Z.gtb_spec t LONG_MAX) as [Hmax|Hmax];
      [cbn [st_errno]; rewrite Z.eqb_refl; discriminate|].
    destruct (Z.ltb_spec t LONG_MIN) as [Hmin|Hmin];
      [cbn [st_errno]; rewrite Z.eqb_refl; discriminate|].
    cbn [st_errno st_endptr st_value]. change (0 =? ERANGE) with false.
    cbv iota.
    destruct (Z.eqb_spec (deref rest) 0) as [Hend|Hend];
      [|discriminate].
    apply deref_end in Hend; [|exact Hrest]. subst rest.
    cbn [negb].
    destruct (Z.ltb_spec (to_int t) t) as [Hlt|Hge]; [discriminate|].
    destruct (Z.ltb_spec t 1) as [Hlow|Hlow]; [discriminate|].
    intros _. pose proof (to_int_range t) as Hr.
    assert (Hneg : neg = false).
    { destruct neg; [subst t; lia|reflexivity]. }
    subst neg. subst t.
    exists ws, sign, ds. repeat split; try assumption; try lia.
    + rewrite Hds, append_empty_r in Hsign. rewrite Hsign in Hs. exact Hs.
    + destruct Hcase as [[-> _]|[[-> _]|[_ Hf]]]; auto. discriminate.
  - cbn [st_errno st_endptr st_value]. change (0 =? ERANGE) with false.
    cbv iota. destruct (negb (deref s =? 0)); discriminate.
Qed.

Lemma skip_space_app (ws r : string) :
  all_chars isspace ws = true -> skip_space (ws ++ r) = skip_space r.
Proof.
  induction ws as [|c ws IH]; cbn [all_chars append skip_space]; [reflexivity|].
  intros H. apply andb_prop in H as [Hc Hws]. rewrite Hc. now apply IH.
Qed.

Lemma digit_not_space (c : ascii) : isdigit c = true -> isspace c = false.
Proof.
  unfold isdigit, isspace. intros H.
  apply andb_prop in H as [Hlo Hhi]. apply Z.leb_le in Hlo, Hhi.
  apply orb_false_intro; [apply Z.eqb_neq; lia|].
  apply andb_false_intro2. apply Z.leb_gt. lia.
Qed.

Lemma digit_not_sign (c : ascii) :
  isdigit c = true -> Ascii.eqb c "-" = false /\ Ascii.eqb c "+" = false.
Proof.
  intros H. split.
  - destruct (Ascii.eqb_spec c "-") as [->|]; [discriminate H|reflexivity].
  - destruct (Ascii.eqb_spec c "+") as [->|]; [discriminate H|reflexivity].
Qed.

Lemma strtol_digits_all (ds : string) : forall acc,
  all_chars isdigit ds = true ->
  strtol_digits acc ds = (decimal_value acc ds, EmptyString).
Proof.
  induction ds as [|c tl IH]; intros acc H;
    cbn [all_chars strtol_digits decimal_value] in *; [reflexivity|].
  apply andb_prop in H as [Hc Htl]. rewrite Hc. now apply IH.
Qed.

(** What [strtol] makes of a string of the valid shape. *)
Lemma strtol_valid (ws sign ds : string) :
  all_chars isspace ws = true ->
  sign = EmptyString \/ sign = "+"%string ->
  ds <> EmptyString ->
  all_chars isdigit ds = true ->
  decimal_value 0 ds <= LONG_MAX ->
  strtol (ws ++ sign ++ ds) =
  mk_strtol_result (decimal_value 0 ds) EmptyString 0.
Proof.
  intros Hws Hsign Hne Hds Hmax.
  destruct ds as [|c tl]; [contradiction|].
  pose proof Hds as Hds'. cbn [all_chars] in Hds'.
  apply andb_prop in Hds' as [Hc _].
  pose proof (digit_not_space c Hc) as Hsp.
  pose proof (digit_not_sign c Hc) as [Hm Hp].
  pose proof (decimal_value_ge (String c tl) 0 ltac:(lia) Hds) as Hnn.
  unfold strtol. rewrite skip_space_app by assumption.
  assert (Hsg : strtol_sign (skip_space (sign ++ String c tl)) =
                (false, String c tl)).
  { destruct Hsign as [->| ->]; cbn [append skip_space].
    - rewrite Hsp. cbn [strtol_sign]. now rewrite Hm, Hp.
    - reflexivity. }
  rewrite Hsg. cbn [starts_with_digit]. rewrite Hc.
  rewrite strtol_digits_all by assumption.
  replace (decimal_value 0 (String c tl) >? LONG_MAX) with false
    by (symmetry; rewrite Z.gtb_ltb; apply Z.ltb_ge; lia).
  replace (decimal_value 0 (String c tl) <? LONG_MIN) with false
    by (symmetry; apply Z.ltb_ge; unfold LONG_MIN; lia).
  reflexivity.
Qed.

Lemma parse_pid_valid (s : string) (g : globals) :
  valid_pid_string s ->
  exists child, parse_pid s g = mk_run (Ret child) g [] /\
                1 <= child <= INT_MAX.
Proof.
  intros [ws [sign [ds [-> [Hws [Hsign [Hne [Hds Hrange]]]]]]]].
  exists (decimal_value 0 ds). split; [|exact Hrange].
  unfold parse_pid. rewrite strtol_valid; try assumption;
    [|unfold LONG_MAX, INT_MAX in *; lia].
  cbn [st_errno st_endptr st_value deref].
  change (0 =? ERANGE) with false. change (negb (0 =? 0)) with false.
  cbv iota. rewrite to_int_small by (unfold INT_MAX in *; lia).
  replace (decimal_value 0 ds <? decimal_value 0 ds) with false
    by (symmetry; apply Z.ltb_irrefl).
  replace (decimal_value 0 ds <? 1) with false
    by (symmetry; apply Z.ltb_ge; lia).
  reflexivity.
Qed.

Lemma all_chars_app (p : ascii -> bool) (a b : string) :
  all_chars p (a ++ b) = all_chars p a && all_chars p b.
Proof.
  induction a as [|c a IH]; cbn [append all_chars]; [reflexivity|].
  now rewrite IH, andb_assoc.
Qed.

Lemma all_chars_weaken (p q : ascii -> bool) (s : string) :
  (forall c, p c = true -> q c = true) ->
  all_chars p s = true -> all_chars q s = true.
Proof.
  intros Hpq. induction s as [|c s IH]; cbn [all_chars]; [reflexivity|].
  intros H. apply andb_prop in H as [Hc Hs]. now rewrite (Hpq c Hc), IH.
Qed.

(** A valid pid argument has no character besides white space, the plus
    sign and digits: any other content makes it invalid. *)
Lemma valid_pid_only_numeric (s : string) :
  valid_pid_string s ->
  all_chars (fun c => isspace c || Ascii.eqb c "+" || isdigit c) s = true.
Proof.
  intros [ws [sign [ds [-> [Hws [Hsign [_ [Hds _]]]]]]]].
  rewrite !all_chars_app. repeat (apply andb_true_intro; split).
  - eapply all_chars_weaken; [|exact Hws]. intros c ->. reflexivity.
  - destruct Hsign as [->| ->]; reflexivity.
  - eapply all_chars_weaken; [|exact Hds]. intros c ->. apply orb_true_r.
Qed.

(** ** [getopt] and the option loop *)

Lemma total_length_skipn (l : list string) : forall n,
  (total_length (skipn n l) <= total_length l)%nat.
Proof.
  induction l as [|a l IH]; intros [|n]; cbn; try lia.
  specialize (IH n). unfold total_length in *. lia.
Qed.

Lemma total_length_cons (a : string) (l : list string) :
  total_length (a :: l) = S (String.length a + total_length l).
Proof. reflexivity. Qed.

Lemma skipn_nth_error {A} (l : list A) : forall n a,
  nth_error l n = Some a -> skipn n l = a :: skipn (S n) l.
Proof.
  induction l as [|x l IH]; intros [|n] a; cbn; try discriminate.
  - now intros [= ->].
  - intros H. now rewrite (IH n a H).
Qed.

Lemma code_not_minus_one (c : ascii) : code c <> -1.
Proof. pose proof (code_range c). lia. Qed.

Lemma keeps_refl (argv : list string) (st : getopt_state) :
  keeps argv st argv st.
Proof. unfold keeps. repeat split; auto. Qed.

Lemma keeps_trans (a1 a2 a3 : list string) (s1 s2 s3 : getopt_state) :
  keeps a1 s1 a2 s2 -> keeps a2 s2 a3 s3 -> keeps a1 s1 a3 s3.
Proof.
  unfold keeps. intros [L1 [N1 [W1 H1]]] [L2 [N2 [W2 H2]]].
  split; [congruence|split; [congruence|split; [lia|]]].
  intros Hf Ho. destruct (H1 Hf Ho) as [Hf2 [Ho2 E1]].
  destruct (H2 Hf2 Ho2) as [Hf3 [Ho3 E2]].
  split; [exact Hf3|split; [exact Ho3|congruence]].
Qed.

Lemma exchange_parts (argv : list string) (st : getopt_state) :
  exists front,
    fst (exchange argv st) = (front ++ skipn (optind st) argv)%list /\
    List.length front = List.length (firstn (optind st) argv) /\
    ((1 <= first_nonopt st)%nat -> (1 <= optind st)%nat ->
     nth 0 (front ++ skipn (optind st) argv) EmptyString =
     nth 0 argv EmptyString).
Proof.
  unfold exchange. cbn [fst].
  set (scanned := firstn (optind st) argv).
  set (head := firstn (first_nonopt st) scanned).
  set (middle := skipn (first_nonopt st) scanned).
  set (k := (last_nonopt st - first_nonopt st)%nat).
  exists (head ++ skipn k middle ++ firstn k middle)%list.
  split; [now rewrite <- !app_assoc|].
  assert (Hm : (List.length (firstn k middle) + List.length (skipn k middle) =
                List.length middle)%nat)
    by (now rewrite <- length_app, firstn_skipn).
  assert (Hs : (List.length head + List.length middle =
                List.length scanned)%nat)
    by (unfold head, middle; now rewrite <- length_app, firstn_skipn).
  split.
  - rewrite !length_app. lia.
  - intros Hf Ho. destruct argv as [|a argv]; [|].
    + unfold head, middle, scanned.
      rewrite !firstn_nil, !skipn_nil, !firstn_nil. reflexivity.
    + unfold head, scanned.
      destruct (optind st) as [|i]; [lia|].
      destruct (first_nonopt st) as [|f]; [lia|]. reflexivity.
Qed.

Lemma exchange_keeps (argv : list string) (st : getopt_state) :
  keeps argv st (fst (exchange argv st)) (snd (exchange argv st)).
Proof.
  destruct (exchange_parts argv st) as [front [Hfst [Hlen Hhead]]].
  assert (Hsuf : skipn (optind st) (fst (exchange argv st)) =
                 skipn (optind st) argv).
  { rewrite Hfst. rewrite length_firstn in Hlen.
    destruct (Nat.le_gt_cases (optind st) (List.length argv)) as [Hle|Hgt].
    - rewrite skipn_app.
      replace (optind st - List.length front)%nat with O by lia.
      rewrite skipn_all2 by lia. reflexivity.
    - rewrite (skipn_all2 argv) by lia. rewrite app_nil_r.
      apply skipn_all2. lia. }
  unfold keeps. split; [|split; [reflexivity|split]].
  - rewrite Hfst, length_app, Hlen, <- length_app, firstn_skipn. reflexivity.
  - change (optind (snd (exchange argv st))) with (optind st).
    now rewrite Hsuf.
  - intros Hf Ho. split; [cbn; lia|split; [exact Ho|]].
    rewrite Hfst. now apply Hhead.
Qed.

Lemma skip_nonoptions_spec (rest : list string) : forall i,
  exists k, skip_nonoptions rest i = (i + k)%nat /\
            (total_length (skipn k rest) <= total_length rest)%nat.
Proof.
  induction rest as [|a rest IH]; intros i; cbn [skip_nonoptions].
  - exists O. split; [lia|reflexivity].
  - destruct (nonoption a).
    + destruct (IH (S i)) as [k [Hk Hw]]. exists (S k).
      split; [lia|]. cbn [skipn]. rewrite total_length_cons. lia.
    + exists O. split; [lia|reflexivity].
Qed.

Lemma permute_keeps (argv : list string) (st : getopt_state) :
  keeps argv st (fst (permute argv st)) (snd (permute argv st)).
Proof.
  unfold permute.
  set (c1 := negb (first_nonopt st =? last_nonopt st)%nat &&
             negb (last_nonopt st =? optind st)%nat).
  set (first := if c1 then exchange argv st
                else if negb (last_nonopt st =? optind st)%nat
                then (argv, mk_getopt_state (optind st) (nextchar st)
                              (optind st) (last_nonopt st))
                else (argv, st)).
  assert (H1 : keeps argv st (fst first) (snd first)).
  { unfold first. destruct c1; [apply exchange_keeps|].
    destruct (negb (last_nonopt st =? optind st)%nat); [|apply keeps_refl].
    unfold keeps. cbn [fst snd optind nextchar first_nonopt].
    split; [reflexivity|split; [reflexivity|split; [lia|]]].
    intros Hf Ho. auto. }
  destruct first as [argv1 st1]. cbn [fst snd] in *.
  eapply keeps_trans; [exact H1|].
  destruct (skip_nonoptions_spec (skipn (optind st1) argv1) (optind st1))
    as [k [Hk Hw]].
  rewrite Hk. unfold keeps. cbn [optind nextchar first_nonopt].
  split; [reflexivity|split; [reflexivity|split]].
  - rewrite Nat.add_comm, <- skipn_skipn. exact Hw.
  - intros Hf Ho. split; [exact Hf|split; [lia|reflexivity]].
Qed.

Lemma end_of_options_keeps (argv : list string) (st : getopt_state) :
  keeps argv st (fst (end_of_options argv st)) (snd (end_of_options argv st)).
Proof.
  unfold end_of_options.
  destruct (negb (optind st =? List.length argv)%nat &&
            String.eqb (nth (optind st) argv EmptyString) "--") eqn:Hc;
    [|apply keeps_refl].
  assert (Hlt : (optind st < List.length argv)%nat).
  { apply andb_prop in Hc as [_ Hd]. apply String.eqb_eq in Hd.
    destruct (Nat.lt_ge_cases (optind st) (List.length argv)) as [Hl|Hge];
      [exact Hl|].
    rewrite nth_overflow in Hd by lia. discriminate. }
  set (st1 := mk_getopt_state (S (optind st)) (nextchar st)
                (first_nonopt st) (last_nonopt st)).
  set (second := if negb (first_nonopt st1 =? last_nonopt st1)%nat &&
                    negb (last_nonopt st1 =? optind st1)%nat
                 then exchange argv st1
                 else if (first_nonopt st1 =? last_nonopt st1)%nat
                 then (argv, mk_getopt_state (optind st1) (nextchar st1)
                               (optind st1) (last_nonopt st1))
                 else (argv, st1)).
  assert (H2 : List.length (fst second) = List.length argv /\
               nextchar (snd second) = nextchar st /\
               ((1 <= first_nonopt st)%nat -> (1 <= optind st)%nat ->
                (1 <= first_nonopt (snd second))%nat /\
                nth 0 (fst second) EmptyString = nth 0 argv EmptyString)).
  { unfold second.
    destruct (negb (first_nonopt st1 =? last_nonopt st1)%nat &&
              negb (last_nonopt st1 =? optind st1)%nat).
    - destruct (exchange_keeps argv st1) as [L [N [_ H]]].
      split; [exact L|split; [exact N|]].
      intros Hf Ho.
      assert (Ho1 : (1 <= optind st1)%nat) by (cbn; lia).
      destruct (H Hf Ho1) as [Hf' [_ E]]. auto.
    - destruct (first_nonopt st1 =? last_nonopt st1)%nat;
        cbn [fst snd optind nextchar first_nonopt st1];
        (split; [reflexivity|split; [reflexivity|]]);
        intros Hf Ho; (split; [lia|reflexivity]). }
  destruct second as [argv2 st2]. cbn [fst snd] in *.
  destruct H2 as [L [N H]].
  unfold keeps. cbn [optind nextchar first_nonopt].
  split; [exact L|split; [exact N|split]].
  - rewrite skipn_all2 by lia. cbn. lia.
  - intros Hf Ho. destruct (H Hf Ho) as [Hf2 E].
    split; [exact Hf2|split; [lia|exact E]].
Qed.

Lemma skip_nonoptions_lands (rest : list string) : forall i,
  nth_error rest (skip_nonoptions rest i - i) = None \/
  exists a, nth_error rest (skip_nonoptions rest i - i) = Some a /\
            nonoption a = false.
Proof.
  induction rest as [|a rest IH]; intros i; cbn [skip_nonoptions].
  - left. now destruct (i - i)%nat.
  - destruct (nonoption a) eqn:Ha.
    + destruct (skip_nonoptions_spec rest (S i)) as [k [Hk _]].
      specialize (IH (S i)). rewrite Hk in *.
      replace (S i + k - i)%nat with (S k) by lia.
      replace (S i + k - S i)%nat with k in IH by lia. exact IH.
    + right. exists a. rewrite Nat.sub_diag. auto.
Qed.

Lemma nth_error_skipn {A} (l : list A) : forall i k,
  nth_error (skipn i l) k = nth_error l (i + k).
Proof.
  induction l as [|x l IH]; intros [|i] k; cbn; try reflexivity.
  - now destruct k.
  - apply IH.
Qed.

Lemma permute_lands (argv : list string) (st : getopt_state) :
  at_option (fst (permute argv st)) (snd (permute argv st)).
Proof.
  unfold permute, at_option.
  destruct (if negb (first_nonopt st =? last_nonopt st)%nat &&
               negb (last_nonopt st =? optind st)%nat
            then exchange argv st
            else if negb (last_nonopt st =? optind st)%nat
            then (argv, mk_getopt_state (optind st) (nextchar st)
                          (optind st) (last_nonopt st))
            else (argv, st)) as [argv1 st1].
  cbn [fst snd optind].
  destruct (skip_nonoptions_spec (skipn (optind st1) argv1) (optind st1))
    as [k [Hk _]].
  pose proof (skip_nonoptions_lands (skipn (optind st1) argv1) (optind st1))
    as Hl.
  rewrite Hk in *. replace (optind st1 + k - optind st1)%nat with k in Hl by lia.
  now rewrite nth_error_skipn in Hl.
Qed.

Lemma end_of_options_lands (argv : list string) (st : getopt_state) :
  optind (snd (end_of_options argv st)) =
  List.length (fst (end_of_options argv st))
  \/ end_of_options argv st = (argv, st).
Proof.
  unfold end_of_options.
  destruct (negb (optind st =? List.length argv)%nat &&
            String.eqb (nth (optind st) argv EmptyString) "--");
    [left|now right].
  set (st1 := mk_getopt_state (S (optind st)) (nextchar st)
                (first_nonopt st) (last_nonopt st)).
  destruct (negb (first_nonopt st1 =? last_nonopt st1)%nat &&
            negb (last_nonopt st1 =? optind st1)%nat).
  - pose proof (exchange_keeps argv st1) as [L _].
    destruct (exchange argv st1) as [argv2 st2]. cbn [fst snd optind] in *.
    auto.
  - destruct (first_nonopt st1 =? last_nonopt st1)%nat; reflexivity.
Qed.

(** A call of [getopt]: it returns and leaves the globals alone; it
    keeps the number of arguments and the program's name; when it finds
    something it has used up part of [argv]; and what it finds is a
    letter of [optstring], or ['?'] with its complaint. *)
Lemma getopt_char_spec (argv : list string) (optstring : string)
    (st : getopt_state) (c : ascii) (tl : string) (g : globals) :
  exists opt st' tr,
    getopt_char argv optstring st c tl g = mk_run (Ret (opt, st', argv)) g tr /\
    opt <> -1 /\
    (remaining argv st' <=
     String.length tl + total_length (skipn (S (optind st)) argv))%nat /\
    getopt_answer optstring opt tr /\
    first_nonopt st' = first_nonopt st /\
    (optind st <= optind st')%nat.
Proof.
  unfold getopt_char.
  set (st' := match tl with
              | EmptyString => mk_getopt_state (S (optind st)) EmptyString
                                 (first_nonopt st) (last_nonopt st)
              | String _ _ => mk_getopt_state (optind st) tl
                                (first_nonopt st) (last_nonopt st)
              end).
  assert (Hr : (remaining argv st' <=
                String.length tl +
                total_length (skipn (S (optind st)) argv))%nat)
    by (unfold st'; destruct tl; unfold remaining; cbn; lia).
  assert (Hf : first_nonopt st' = first_nonopt st)
    by (unfold st'; destruct tl; reflexivity).
  assert (Ho : (optind st <= optind st')%nat)
    by (unfold st'; destruct tl; cbn; lia).
  destruct (in_optstring c optstring) eqn:Hin; cbn [andb];
    [destruct (negb (Ascii.eqb c ":") && negb (Ascii.eqb c ";"))|].
  - exists (code c), st', [].
    split; [reflexivity|split; [apply code_not_minus_one|]].
    split; [exact Hr|split; [|auto]].
    right. left. exists c. auto.
  - exists (code "?"%char), st', [Stderr "%s: invalid option -- '%c'\n"].
    split; [reflexivity|split; [apply code_not_minus_one|]].
    split; [exact Hr|split; [|auto]].
    right. right. auto.
  - exists (code "?"%char), st', [Stderr "%s: invalid option -- '%c'\n"].
    split; [reflexivity|split; [apply code_not_minus_one|]].
    split; [exact Hr|split; [|auto]].
    right. right. auto.
Qed.

Lemma getopt_spec (posixly_correct : bool) (argv : list string)
    (optstring : string) (st : getopt_state) (g : globals) :
  exists opt st' argv' tr,
    getopt posixly_correct argv optstring st g =
    mk_run (Ret (opt, st', argv')) g tr /\
    List.length argv' = List.length argv /\
    (opt = -1 \/ (remaining argv' st' < remaining argv st)%nat) /\
    getopt_answer optstring opt tr /\
    ((1 <= first_nonopt st)%nat -> (1 <= optind st)%nat ->
     (1 <= first_nonopt st')%nat /\ (1 <= optind st')%nat /\
     nth 0 argv' EmptyString = nth 0 argv EmptyString).
Proof.
  unfold getopt. destruct (nextchar st) as [|c tl] eqn:En.
  - set (first := if posixly_correct then (argv, rationalize st)
                  else permute argv (rationalize st)).
    assert (H1 : keeps argv st (fst first) (snd first)).
    { assert (Hrat : keeps argv st argv (rationalize st)).
      { unfold keeps, rationalize. cbn [optind nextchar first_nonopt].
        split; [reflexivity|split; [reflexivity|split; [lia|]]].
        intros Hf Ho. split; [lia|split; [exact Ho|reflexivity]]. }
      unfold first. destruct posixly_correct; [exact Hrat|].
      eapply keeps_trans; [exact Hrat|apply permute_keeps]. }
    assert (Hat : posixly_correct = false -> at_option (fst first) (snd first)).
    { intros ->. apply permute_lands. }
    destruct first as [argv1 st1]. cbn [fst snd] in H1, Hat.
    pose proof (end_of_options_keeps argv1 st1) as H2.
    pose proof (end_of_options_lands argv1 st1) as Hland.
    destruct (end_of_options argv1 st1) as [argv2 st2].
    cbn [fst snd] in H2, Hland.
    pose proof (keeps_trans _ _ _ _ _ _ H1 H2) as [L [N [W H]]].
    rewrite En in N.
    assert (Hend : forall st3,
              (first_nonopt st3 = first_nonopt st2) ->
              (optind st3 = optind st2 \/ optind st3 = first_nonopt st2) ->
              exists opt st' argv' tr,
                ret (-1, st3, argv2) g = mk_run (Ret (opt, st', argv')) g tr /\
                List.length argv' = List.length argv /\
                (opt = -1 \/ (remaining argv' st' < remaining argv st)%nat) /\
                getopt_answer optstring opt tr /\
                ((1 <= first_nonopt st)%nat -> (1 <= optind st)%nat ->
                 (1 <= first_nonopt st')%nat /\ (1 <= optind st')%nat /\
                 nth 0 argv' EmptyString = nth 0 argv EmptyString)).
    { intros st3 Hf3 Ho3. exists (-1), st3, argv2, [].
      split; [reflexivity|split; [exact L|split; [now left|split;
        [left; auto|]]]].
      intros Hf Ho. destruct (H Hf Ho) as [Hf2 [Ho2 E]].
      split; [lia|split; [lia|exact E]]. }
    destruct (Nat.eqb_spec (optind st2) (List.length argv2)) as [Heq|Hne].
    { destruct (negb (first_nonopt st2 =? last_nonopt st2)%nat);
        apply Hend; cbn; auto. }
    destruct Hland as [Hland|Hland]; [contradiction|].
    injection Hland as -> ->.
    destruct (nth_error argv1 (optind st1)) as [a|] eqn:Ea;
      [|apply Hend; auto].
    assert (Hnon : nonoption a = true ->
              exists opt st' argv' tr,
              (if posixly_correct then ret (-1, st1, argv1)
               else ret (1, mk_getopt_state (S (optind st1)) (nextchar st1)
                              (first_nonopt st1) (last_nonopt st1), argv1)) g =
              mk_run (Ret (opt, st', argv')) g tr /\
              List.length argv' = List.length argv /\
              (opt = -1 \/ (remaining argv' st' < remaining argv st)%nat) /\
              getopt_answer optstring opt tr /\
              ((1 <= first_nonopt st)%nat -> (1 <= optind st)%nat ->
               (1 <= first_nonopt st')%nat /\ (1 <= optind st')%nat /\
               nth 0 argv' EmptyString = nth 0 argv EmptyString)).
    { intros Ha. destruct posixly_correct; [apply Hend; auto|].
      exfalso. destruct (Hat eq_refl) as [Hn|[a' [Hs Hf]]]; congruence. }
    destruct a as [|d [|c tl]]; try (apply Hnon; reflexivity).
    destruct (nonoption (String d (String c tl))) eqn:Ha;
      [apply Hnon; reflexivity|].
    destruct (getopt_char_spec argv1 optstring st1 c tl g)
      as [opt [st' [tr [E [Hopt [Hrem [Htr [Hf' Ho']]]]]]]].
    exists opt, st', argv1, tr.
    split; [exact E|split; [exact L|split; [|split; [exact Htr|]]]].
    + right. unfold remaining at 2. rewrite En.
      rewrite (skipn_nth_error _ _ _ Ea), total_length_cons in W.
      cbn [String.length] in W. lia.
    + intros Hf Ho. destruct (H Hf Ho) as [Hf2 [Ho2 E0]].
      split; [lia|split; [lia|exact E0]].
  - destruct (getopt_char_spec argv optstring st c tl g)
      as [opt [st' [tr [E [Hopt [Hrem [Htr [Hf' Ho']]]]]]]].
    exists opt, st', argv, tr.
    split; [exact E|split; [reflexivity|split; [|split; [exact Htr|]]]].
    + right. unfold remaining at 2. rewrite En. lia.
    + intros Hf Ho. split; [lia|split; [lia|reflexivity]].
Qed.

(** ** The option loop *)

Lemma option_switch_result (me : string) (opt : Z) (o : options) (g : globals) :
  result (option_switch me opt o g) <> Halt Unfinished.
Proof.
  unfold option_switch.
  repeat match goal with
         | |- context [if ?b then _ else _] => destruct b
         end; cbn; discriminate.
Qed.

Lemma option_switch_ret_trace me opt o g o' :
  result (option_switch me opt o g) = Ret o' ->
  trace (option_switch me opt o g) = [].
Proof.
  unfold option_switch.
  repeat match goal with
         | |- context [if ?b then _ else _] => destruct b
         end; cbn; try discriminate; reflexivity.
Qed.

Lemma option_switch_globals (me : string) (opt : Z) (o : options) (g : globals) :
  winch_happened (after (option_switch me opt o g)) = winch_happened g /\
  (verbose (after (option_switch me opt o g)) = verbose g \/
   verbose (after (option_switch me opt o g)) = 1).
Proof.
  unfold option_switch.
  repeat match goal with
         | |- context [if ?b then _ else _] => destruct b
         end; cbn; auto.
Qed.

Lemma in_optstring_letters (c : ascii) :
  in_optstring c "hlLsTvV" = true ->
  c = "h"%char \/ c = "l"%char \/ c = "L"%char \/ c = "s"%char \/
  c = "T"%char \/ c = "v"%char \/ c = "V"%char.
Proof.
  cbn [in_optstring]. intros H.
  repeat (apply orb_true_iff in H; destruct H as [H|H];
          [apply Ascii.eqb_eq in H; auto 10|]).
  discriminate.
Qed.

(** The option loop never runs out of fuel, since every call of [getopt]
    that finds an option uses up a character; it hands on the flags, the
    state and the permuted [argv] in silence, or leaves the program in
    one of the three ways of [option_exit]. *)
Lemma option_loop_spec (p : bool) : forall fuel argv st o g,
  (remaining argv st < fuel)%nat ->
  (1 <= first_nonopt st)%nat -> (1 <= optind st)%nat ->
  (exists o' st' argv',
     result (option_loop fuel p argv st o g) = Ret (o', st', argv') /\
     trace (option_loop fuel p argv st o g) = [] /\
     List.length argv' = List.length argv /\
     nth 0 argv' EmptyString = nth 0 argv EmptyString)
  \/ (exists out,
        result (option_loop fuel p argv st o g) = Halt out /\
        option_exit (nth 0 argv EmptyString) out
          (trace (option_loop fuel p argv st o g))).
Proof.
  induction fuel as [|fuel IH]; intros argv st o g Hfuel Hf Ho; [lia|].
  destruct (getopt_spec p argv "hlLsTvV" st g)
    as [opt [st' [argv' [tr [E [L [Hrem [Hans Hk]]]]]]]].
  destruct (Hk Hf Ho) as [Hf' [Ho' Hme]].
  cbn [option_loop]. rewrite (bind_run _ _ _ _ _ _ E). cbv beta iota.
  cbn [result trace].
  destruct Hans as [[-> ->]|[[c [-> [Hin ->]]]|[-> ->]]].
  - left. exists o, st', argv'. cbn. auto.
  - destruct Hrem as [Hrem|Hrem];
      [exfalso; eapply code_not_minus_one; eassumption|].
    assert (Hgo : forall o' g',
              (exists o'' st'' argv'',
                 result (option_loop fuel p argv' st' o' g') =
                 Ret (o'', st'', argv'') /\
                 trace (option_loop fuel p argv' st' o' g') = [] /\
                 List.length argv'' = List.length argv /\
                 nth 0 argv'' EmptyString = nth 0 argv EmptyString)
              \/ (exists out,
                    result (option_loop fuel p argv' st' o' g') = Halt out /\
                    option_exit (nth 0 argv EmptyString) out
                      (trace (option_loop fuel p argv' st' o' g')))).
    { intros o' g'. rewrite <- L, <- Hme. apply IH; [lia|exact Hf'|exact Ho']. }
    rewrite Hme.
    destruct (in_optstring_letters c Hin)
      as [->|[->|[->|[->|[->|[->| ->]]]]]].
    + right. exists (Exit 0). cbn. split; [reflexivity|left; auto].
    + left. eexists _, st', argv'. cbn. auto.
    + left. eexists _, st', argv'. cbn. auto.
    + cbn. apply Hgo.
    + cbn. apply Hgo.
    + right. exists (Exit 0). cbn. split; [reflexivity|right; left; auto].
    + cbn. apply Hgo.
  - right. exists (Exit 1). rewrite Hme. cbn.
    split; [reflexivity|right; right; auto].
Qed.

Lemma option_loop_globals (p : bool) : forall fuel argv st o g,
  winch_happened (after (option_loop fuel p argv st o g)) = winch_happened g /\
  (verbose (after (option_loop fuel p argv st o g)) = verbose g \/
   verbose (after (option_loop fuel p argv st o g)) = 1).
Proof.
  induction fuel as [|fuel IH]; intros argv st o g; cbn [option_loop];
    [cbn; auto|].
  destruct (getopt_spec p argv "hlLsTvV" st g)
    as [opt [st' [argv' [tr [E _]]]]].
  rewrite (bind_run _ _ _ _ _ _ E). cbv beta iota. cbn [after].
  destruct (opt =? -1); [cbn; auto|].
  rewrite after_bind.
  destruct (option_switch_globals (nth 0 argv' EmptyString) opt o g)
    as [Hw Hv].
  destruct (result (option_switch _ opt o g)) as [o'|]; [|auto].
  destruct ((opt =? code "l") || (opt =? code "L")); [cbn; auto|].
  destruct (IH argv' st' o'
              (after (option_switch (nth 0 argv' EmptyString) opt o g)))
    as [Hw' Hv'].
  split; [congruence|]. destruct Hv' as [Hv'|Hv']; [|auto].
  rewrite Hv'. exact Hv.
Qed.

Lemma getopt_start_fuel (argv : list string) :
  (remaining argv getopt_start < option_fuel argv)%nat.
Proof.
  unfold remaining, option_fuel, getopt_start. cbn [nextchar optind].
  pose proof (total_length_skipn argv 1). lia.
Qed.

(** The option loop of [main], started as [main] starts it. *)
Lemma options_run (p : bool) (argv : list string) (g : globals) :
  (exists o st argv',
     result (option_loop (option_fuel argv) p argv getopt_start
               initial_options g) = Ret (o, st, argv') /\
     trace (option_loop (option_fuel argv) p argv getopt_start
              initial_options g) = [] /\
     List.length argv' = List.length argv /\
     nth 0 argv' EmptyString = nth 0 argv EmptyString)
  \/ (exists out,
        result (option_loop (option_fuel argv) p argv getopt_start
                  initial_options g) = Halt out /\
        option_exit (nth 0 argv EmptyString) out
          (trace (option_loop (option_fuel argv) p argv getopt_start
                    initial_options g))).
Proof.
  apply option_loop_spec;
    [apply getopt_start_fuel|cbn; lia|cbn; lia].
Qed.

Lemma main_options_total (p : bool) (argv : list string) (g : globals) :
  result (option_loop (option_fuel argv) p argv getopt_start
            initial_options g) <> Halt Unfinished.
Proof.
  destruct (options_run p argv g) as [[o [st [argv' [H _]]]]|[out [H Hx]]];
    rewrite H; [discriminate|].
  destruct Hx as [[-> _]|[[-> _]|[-> _]]]; discriminate.
Qed.

(** [main] after an option loop that has handed on: the rest runs on the
    permuted [argv], which has the length and the first element of the
    one [main] was given. *)
Lemma main_run (e : env) (argv : list string) (g : globals) (o : options)
    (st : getopt_state) (argv' : list string) :
  result (option_loop (option_fuel argv) (e_posixly_correct e) argv
            getopt_start initial_options g) = Ret (o, st, argv') ->
  main e argv g =
  main_after_options e argv' o st
    (after (option_loop (option_fuel argv) (e_posixly_correct e) argv
              getopt_start initial_options g))
  /\ List.length argv' = List.length argv
  /\ nth 0 argv' EmptyString = nth 0 argv EmptyString.
Proof.
  intros H.
  destruct (options_run (e_posixly_correct e) argv g)
    as [[o1 [st1 [argv1 [H1 [Htr [L Hme]]]]]]|[out [H1 _]]];
    rewrite H in H1; [|discriminate].
  injection H1 as <- <- <-.
  split; [|split; [exact L|exact Hme]].
  unfold main. rewrite (bind_result_ret _ _ _ _ H), Htr.
  cbv beta iota. cbn [app]. apply run_eta.
Qed.

(** The option loop on some command lines.  Options behind the pid are
    taken, and moved in front of it; several letters may share one
    argument; [--] ends the options; with [POSIXLY_CORRECT] the scan stops
    at the first argument that is not an option. *)
Lemma option_loop_examples :
  result (option_loop (option_fuel ["reptyr"; "42"; "-s"]%string) false
            ["reptyr"; "42"; "-s"]%string getopt_start initial_options
            initial_globals) =
  Ret (mk_options 1 1 0 0, mk_getopt_state 2 EmptyString 2 3,
       ["reptyr"; "-s"; "42"]%string)
  /\ result (option_loop
               (option_fuel ["reptyr"; "a"; "-s"; "b"; "-TV"; "c"]%string)
               false ["reptyr"; "a"; "-s"; "b"; "-TV"; "c"]%string
               getopt_start initial_options initial_globals) =
     Ret (mk_options 1 1 1 0, mk_getopt_state 3 EmptyString 3 6,
          ["reptyr"; "-s"; "-TV"; "a"; "b"; "c"]%string)
  /\ result (option_loop (option_fuel ["reptyr"; "42"; "--"; "-s"]%string)
               false ["reptyr"; "42"; "--"; "-s"]%string getopt_start
               initial_options initial_globals) =
     Ret (initial_options, mk_getopt_state 2 EmptyString 2 4,
          ["reptyr"; "--"; "42"; "-s"]%string)
  /\ result (option_loop (option_fuel ["reptyr"; "42"; "-s"]%string) true
               ["reptyr"; "42"; "-s"]%string getopt_start initial_options
               initial_globals) =
     Ret (initial_options, mk_getopt_state 1 EmptyString 1 1,
          ["reptyr"; "42"; "-s"]%string).
Proof. repeat split. Qed.
(** ** [main] *)

Lemma allocate_pty_ok (e : env) (o : options) (g : globals) :
  do_steal o = 0 -> 0 <= e_get_pt e -> 0 <= e_unlockpt e -> 0 <= e_grantpt e ->
  allocate_pty e o g =
  mk_run (Ret (e_get_pt e)) g
    [GetPt; Unlockpt (e_get_pt e); Grantpt (e_get_pt e)].
Proof.
  intros Hs H1 H2 H3. unfold allocate_pty. rewrite Hs. cbn [Z.eqb].
  rewrite bind_emit.
  replace (e_get_pt e <? 0) with false by (symmetry; apply Z.ltb_ge; lia).
  rewrite bind_emit.
  replace (e_unlockpt e <? 0) with false by (symmetry; apply Z.ltb_ge; lia).
  rewrite bind_emit.
  replace (e_grantpt e <? 0) with false by (symmetry; apply Z.ltb_ge; lia).
  reflexivity.
Qed.

Lemma allocate_pty_cases (e : env) (o : options) (g : globals) :
  (do_steal o <> 0 -> allocate_pty e o g = mk_run (Ret (e_junk_pty e)) g [])
  /\ (do_steal o = 0 ->
        exists tail,
          trace (allocate_pty e o g) = GetPt :: tail /\
          Forall setup_event tail /\
          (result (allocate_pty e o g) = Halt (Exit 1) \/
           result (allocate_pty e o g) = Ret (e_get_pt e))).
Proof.
  unfold allocate_pty. split; intros Hs.
  - apply Z.eqb_neq in Hs. now rewrite Hs.
  - rewrite Hs. cbn [Z.eqb]. rewrite bind_emit. cbn [trace result].
    eexists. split; [reflexivity|].
    destruct (e_get_pt e <? 0);
      [cbn; split; [repeat constructor|now left]|].
    rewrite bind_emit. cbn [trace result].
    destruct (e_unlockpt e <? 0);
      [cbn; split; [repeat constructor|now left]|].
    rewrite bind_emit. cbn [trace result].
    destruct (e_grantpt e <? 0);
      cbn; (split; [repeat constructor|auto]).
Qed.

(** C3, as amended.  In attach mode, with the options taken wherever
    [getopt] finds them on the command line, a pid argument (the first
    argument left once [getopt] has moved the options to the front)
    that is not of the valid shape makes the process exit with status 1
    after nothing but the allocation calls and messages: no attach or
    steal is asked of the platform layer, the terminal is left alone
    and the relay is not entered.  With [-T] no pseudo-terminal has
    been asked for at that point; without it the allocation comes
    first. *)
Theorem malformed_pid_rejected (e : env) (argv : list string) (g : globals)
    (o : options) (st : getopt_state) (argv' : list string) :
  result (option_loop (option_fuel argv) (e_posixly_correct e) argv
            getopt_start initial_options g) = Ret (o, st, argv') ->
  do_attach o <> 0 ->
  (optind st < List.length argv')%nat ->
  is_cstring (nth (optind st) argv' EmptyString) ->
  ~ valid_pid_string (nth (optind st) argv' EmptyString) ->
  result (main e argv g) = Halt (Exit 1)
  /\ Forall setup_event (trace (main e argv g))
  /\ (do_steal o <> 0 -> exists msg, trace (main e argv g) = [Stderr msg])
  /\ (do_steal o = 0 -> exists tail, trace (main e argv g) = GetPt :: tail).
Proof.
  intros Hol Hatt Hind Hcs Hbad.
  destruct (main_run e argv g o st argv' Hol) as [-> _].
  set (g' := after (option_loop _ _ _ _ _ _)).
  unfold main_after_options.
  replace (List.length argv' <=? optind st)%nat with false
    by (symmetry; apply Nat.leb_gt; lia).
  rewrite andb_false_r.
  apply Z.eqb_neq in Hatt. rewrite Hatt. cbn [negb].
  set (s := nth (optind st) argv' EmptyString) in *.
  assert (Hpid : forall g0, exists msg,
            parse_pid s g0 = mk_run (Halt (Exit 1)) g0 [Stderr msg]).
  { intros g0. destruct (parse_pid_cases s g0) as [H|[child H]]; [exact H|].
    exfalso. apply Hbad. apply (parse_pid_accepts s g0 child Hcs).
    now rewrite H. }
  assert (Hattach : forall pty g0, exists msg,
            bind (attach_branch e o s pty) (fun p => relay_session e p) g0 =
            mk_run (Halt (Exit 1)) g0 [Stderr msg]).
  { intros pty g0. destruct (Hpid g0) as [msg Hm]. exists msg.
    unfold attach_branch, bind at 1 2. now rewrite Hm. }
  destruct (allocate_pty_cases e o g') as [Hsteal Halloc].
  destruct (Z.eq_dec (do_steal o) 0) as [Hs|Hs].
  - destruct (Halloc Hs) as [tail [Htr [Htail Hres]]].
    rewrite result_bind, trace_bind, Htr.
    destruct Hres as [Hres|Hres]; rewrite Hres.
    + rewrite app_nil_r. repeat split; eauto.
      * constructor; [exact I|exact Htail].
      * intros Hn. contradiction.
    + destruct (Hattach (e_get_pt e) (after (allocate_pty e o g'))) as [msg Hm].
      rewrite Hm. cbn [result trace]. repeat split.
      * apply Forall_app. split; [constructor; [exact I|exact Htail]|].
        repeat constructor.
      * intros Hn. contradiction.
      * intros _. eexists. reflexivity.
  - rewrite (bind_result_ret _ _ _ (e_junk_pty e))
      by (now rewrite (Hsteal Hs)).
    rewrite (Hsteal Hs). cbn [result after trace app].
    destruct (Hattach (e_junk_pty e) g') as [msg Hm]. rewrite Hm.
    cbn [result trace]. repeat split.
    + repeat constructor.
    + intros _. eauto.
    + intros Hn. contradiction.
Qed.

Lemma create_branch_run (e : env) (o : options) (argv : list string)
    (pty : Z) (g : globals) :
  e_fork e <> 0 ->
  create_branch e o argv pty g =
  mk_run (Ret tt) g
    (Stdout ("Opened a new pty: " ++ e_ptsname e pty ++ newline) ::
     (if (2 <? List.length argv)%nat then [Fork] else [])).
Proof.
  intros Hf. unfold create_branch. rewrite bind_emit.
  destruct (2 <? List.length argv)%nat; [|reflexivity].
  rewrite bind_emit. apply Z.eqb_neq in Hf. now rewrite Hf.
Qed.

(** What the create branch spawns: a child exactly when [argc > 2], and
    the child runs [argv[2]] with [REPTYR_PTY] set to the slave's path. *)
Lemma create_branch_spawn (e : env) (o : options) (argv : list string)
    (pty : Z) (g : globals) :
  (In Fork (trace (create_branch e o argv pty g)) <->
   (2 < List.length argv)%nat)
  /\ (e_fork e = 0 -> (2 < List.length argv)%nat ->
        unattached_script_redirection o = 0 -> e_execvp_fails e = false ->
        create_branch e o argv pty g =
        mk_run (Halt (ExecImage (nth 2 argv EmptyString) (skipn 2 argv))) g
          [Stdout ("Opened a new pty: " ++ e_ptsname e pty ++ newline); Fork;
           Setenv "REPTYR_PTY" (e_ptsname e pty) 1; Close pty;
           Execvp (nth 2 argv EmptyString) (skipn 2 argv)]).
Proof.
  split.
  - unfold create_branch. rewrite bind_emit. cbn [trace].
    destruct (Nat.ltb_spec 2 (List.length argv)) as [Hl|Hl].
    + rewrite bind_emit. cbn [trace]. split; [intros _; exact Hl|].
      intros _. right. now left.
    + cbn. split; [intros [H|[]]; discriminate|lia].
  - intros Hf Hl Hr Hx. unfold create_branch. rewrite bind_emit.
    replace (2 <? List.length argv)%nat with true
      by (symmetry; apply Nat.ltb_lt; lia).
    rewrite bind_emit, Hf. cbn [Z.eqb].
    unfold child_branch. rewrite bind_emit, Hr. cbn [Z.eqb negb].
    rewrite bind_ret, !bind_emit, Hx. reflexivity.
Qed.

Lemma proxy_loop_enters (pty : Z) (r : round) (rs : list round)
    (buf : list Byte.byte) (g : globals) :
  enters_relay (trace (proxy_loop pty (r :: rs) buf g)).
Proof.
  exists (pty + 1). cbn [proxy_loop]. rewrite trace_bind.
  apply in_or_app. left.
  destruct (proxy_iteration_run pty r buf g) as [tail [-> _]]. cbn [trace].
  apply in_or_app. right. now left.
Qed.

(** C4, as amended.  In create mode, with the pseudo-terminal allocated,
    the parent prints the slave's path, forks when [argc > 2], and then
    runs the same session as the attach modes: raw mode, the relay on the
    new master, the restore.  Its result is that of the session, and the
    relay loop is entered as soon as raw mode could be set up. *)
Theorem create_mode_enters_relay (e : env) (argv : list string) (g : globals)
    (o : options) (st : getopt_state) (argv' : list string) :
  result (option_loop (option_fuel argv) (e_posixly_correct e) argv
            getopt_start initial_options g) = Ret (o, st, argv') ->
  do_attach o = 0 -> do_steal o = 0 ->
  0 <= e_get_pt e -> 0 <= e_unlockpt e -> 0 <= e_grantpt e ->
  e_fork e <> 0 ->
  let g' := after (option_loop (option_fuel argv) (e_posixly_correct e)
                     argv getopt_start initial_options g) in
  let pty := e_get_pt e in
  result (main e argv g) = result (relay_session e pty g')
  /\ trace (main e argv g) =
       ([GetPt; Unlockpt pty; Grantpt pty;
         Stdout ("Opened a new pty: " ++ e_ptsname e pty ++ newline)] ++
        (if (2 <? List.length argv)%nat then [Fork] else []) ++
        trace (relay_session e pty g'))%list
  /\ (forall saved r rs,
        result (setup_raw (e_raw e) (e_junk_termios e) g') = Ret saved ->
        px_sigprocmask (e_proxy e) <> -1 ->
        px_rounds (e_proxy e) = r :: rs ->
        enters_relay (trace (main e argv g))).
Proof.
  intros Hol Hatt Hsteal H1 H2 H3 Hfork g' pty.
  assert (Hmain : main e argv g =
            mk_run (result (relay_session e pty g'))
              (after (relay_session e pty g'))
              ([GetPt; Unlockpt pty; Grantpt pty;
                Stdout ("Opened a new pty: " ++ e_ptsname e pty ++ newline)] ++
               (if (2 <? List.length argv)%nat then [Fork] else []) ++
               trace (relay_session e pty g'))%list).
  { destruct (main_run e argv g o st argv' Hol) as [-> [L _]]. fold g'.
    rewrite <- L.
    unfold main_after_options. rewrite Hatt. cbn [Z.eqb negb andb].
    rewrite (bind_run _ _ _ _ _ _
               (allocate_pty_ok e o g' Hsteal H1 H2 H3)). fold pty.
    assert (Hcb : bind (create_branch e o argv' pty) (fun _ => ret pty) g' =
              mk_run (Ret pty) g'
                (Stdout ("Opened a new pty: " ++ e_ptsname e pty ++ newline) ::
                 (if (2 <? List.length argv')%nat then [Fork] else []))).
    { rewrite (bind_run _ _ _ _ _ _ (create_branch_run e o argv' pty g' Hfork)).
      cbn [ret result after trace]. now rewrite app_nil_r. }
    rewrite (bind_run _ _ _ _ _ _ Hcb). reflexivity. }
  rewrite Hmain. cbn [result trace]. split; [reflexivity|split; [reflexivity|]].
  intros saved r rs Hs Hsig Hr.
  assert (Hin : enters_relay (trace (relay_session e pty g'))).
  { unfold relay_session.
    rewrite trace_bind, Hs, setup_raw_after, trace_bind.
    unfold do_proxy at 1. rewrite bind_emit. cbn [trace].
    apply Z.eqb_neq in Hsig. rewrite Hsig, bind_emit. cbn [trace].
    rewrite trace_bind, resize_pty_run, Hr. cbn [result after trace].
    destruct (proxy_loop_enters pty r rs (px_buf (e_proxy e)) g') as [n Hn].
    exists n. apply in_or_app. right. apply in_or_app. left.
    right. right. apply in_or_app. right. exact Hn. }
  destruct Hin as [n Hn]. exists n.
  apply in_or_app. right. apply in_or_app. right. exact Hn.
Qed.

(** C4, the claim as written fails: [reptyr -l] with no command enters
    the relay before it exits. *)
Lemma create_mode_skips_relay_refuted :
  ~ (fst (program sample_env ["reptyr"; "-l"]%string) = Exit 0 /\
     ~ enters_relay (snd (program sample_env ["reptyr"; "-l"]%string))).
Proof.
  intros [_ H]. apply H. exists 6. vm_compute.
  repeat (first [left; reflexivity | right]).
Qed.

(** C3, the claim as written fails: [reptyr abc] is rejected with status
    1, but only after the pseudo-terminal has been allocated. *)
Lemma malformed_pid_no_resource_refuted :
  ~ (fst (program sample_env ["reptyr"; "abc"]%string) = Exit 1 /\
     ~ In GetPt (snd (program sample_env ["reptyr"; "abc"]%string))).
Proof.
  intros [_ H]. apply H. vm_compute. now left.
Qed.

(** C9.  With an option before [-l] the count of arguments no longer
    tells whether a command follows: [reptyr -V -l] forks although no
    command was given, and the child executes ["-l"]; with a command
    after it, the child still executes ["-l"]. *)
Theorem create_spawn_ignores_option_position :
  In Fork (snd (program sample_env ["reptyr"; "-V"; "-l"]%string))
  /\ program sample_child_env ["reptyr"; "-V"; "-l"]%string =
     (ExecImage "-l" ["-l"%string],
      [GetPt; Unlockpt 5; Grantpt 5;
       Stdout ("Opened a new pty: /dev/pts/9" ++ newline); Fork;
       Setenv "REPTYR_PTY" "/dev/pts/9" 1; Close 5;
       Execvp "-l" ["-l"%string]])
  /\ fst (program sample_child_env ["reptyr"; "-V"; "-l"; "top"]%string) =
     ExecImage "-l" ["-l"; "top"]%string.
Proof.
  split; [|split].
  - vm_compute. repeat (first [left; reflexivity | right]).
  - vm_compute. reflexivity.
  - vm_compute. reflexivity.
Qed.

(** ** The statements at the sample runs *)

Lemma writeall_contract_witness :
  result (writeall sample_writes 1 sample_bytes 3 initial_globals) = Ret 0
  /\ written 1 (trace (writeall sample_writes 1 sample_bytes 3 initial_globals))
     = sample_bytes.
Proof.
  split; [reflexivity|].
  refine (proj2 (proj2 (proj2
    (writeall_contract sample_writes 1 sample_bytes 3 initial_globals
       (mk_sysret (-1) EINTR) _ _))) _).
  - cbn. repeat (constructor; [cbn; lia|]). constructor.
  - cbn. lia.
  - reflexivity.
Defined.

Lemma relay_exit_causes_witness :
  result (proxy_loop 5 [winch_round; failed_write_round; target_eof_round] []
            initial_globals) = Ret tt
  /\ result (writeall (r_write_pty failed_write_round) 5
               (read_into [] (r_read0 failed_write_round)) 3 initial_globals) =
     Ret (-1)
  /\ result (proxy_loop 5 [failed_write_round; target_eof_round] []
               initial_globals) =
     result (proxy_loop 5 [target_eof_round] sample_bytes
               (after (proxy_iteration 5 failed_write_round []
                         initial_globals))).
Proof.
  split; [reflexivity|split; [reflexivity|]].
  refine (proj1 (proj2
    (proj2 (proj2 (relay_exit_causes 5
                     [winch_round; failed_write_round; target_eof_round] []
                     initial_globals eq_refl))
       failed_write_round [target_eof_round] [] initial_globals _ _ _ _ _))).
  - cbn. lia.
  - unfold local_read_failure. cbn. lia.
  - unfold target_read_end. cbn. lia.
  - intros _. exists (-1). reflexivity.
  - intros _. exists (-1). reflexivity.
Defined.

Lemma local_eof_keeps_relaying_witness :
  rd_count (r_read0 local_eof_round) = 0
  /\ result (proxy_iteration 5 local_eof_round [] initial_globals) =
     Ret (Continue []).
Proof.
  split; [reflexivity|].
  refine (proj1 (proj1
    (local_eof_keeps_relaying 5 local_eof_round [] initial_globals _ _ _) _)).
  - cbn. lia.
  - reflexivity.
  - reflexivity.
  - reflexivity.
Defined.

Lemma resize_fallback_size_witness :
  resize_pty (mk_resize_env None 0) 5 initial_globals =
  mk_run (Ret tt) initial_globals
    [GetWinsize 0; SetWinsize 5 (mk_winsize 30 80 640 480)].
Proof.
  exact (proj1 (resize_fallback_size (mk_resize_env None 0) 5 initial_globals
                  eq_refl)).
Defined.

Lemma session_teardown_witness :
  result (do_proxy (e_proxy sample_env) 5 initial_globals) = Ret tt
  /\ result (relay_session sample_env 5 initial_globals) = Ret 0.
Proof.
  split; [reflexivity|].
  refine (proj1 (session_teardown sample_env 5 initial_globals sample_termios
                   [mk_sysret (-1) EINTR] (mk_sysret 0 0) []
                   eq_refl eq_refl eq_refl _ _)).
  - constructor; [reflexivity|constructor].
  - unfold interrupted. cbn. discriminate.
Defined.

Lemma unread_snapshot_is_restored_witness :
  t_get (e_raw sample_noattr_env) = None
  /\ In (Tcsetattr 0 sample_termios)
        (trace (relay_session sample_noattr_env 5 initial_globals)).
Proof.
  split; [reflexivity|].
  exact (proj2 (proj2 (proj2 (proj2 (proj2
           (unread_snapshot_is_restored sample_noattr_env 5
              initial_globals eq_refl)))))
           (mk_sysret (-1) EINTR) [mk_sysret 0 0] eq_refl eq_refl).
Defined.

Lemma malformed_pid_rejected_witness :
  ~ valid_pid_string "abc"
  /\ result (main sample_env ["reptyr"; "abc"; "-T"]%string initial_globals) =
     Halt (Exit 1)
  /\ exists msg,
       trace (main sample_env ["reptyr"; "abc"; "-T"]%string initial_globals) =
       [Stderr msg].
Proof.
  assert (Hbad : ~ valid_pid_string "abc").
  { intros Hv.
    destruct (parse_pid_valid "abc" initial_globals Hv) as [child [H _]].
    vm_compute in H. discriminate H. }
  split; [exact Hbad|].
  assert (Hsteal : do_steal (mk_options 1 0 1 0) <> 0) by (cbn; discriminate).
  refine ((fun H => conj (proj1 H) (proj1 (proj2 (proj2 H)) Hsteal))
            (malformed_pid_rejected sample_env
               ["reptyr"; "abc"; "-T"]%string
               initial_globals (mk_options 1 0 1 0)
               (mk_getopt_state 2 EmptyString 2 3)
               ["reptyr"; "-T"; "abc"]%string eq_refl _ _ _ _)).
  - cbn. discriminate.
  - cbn. lia.
  - cbn. repeat split; discriminate.
  - exact Hbad.
Defined.

Lemma create_mode_enters_relay_witness :
  enters_relay (trace (main sample_env ["reptyr"; "-l"]%string initial_globals)).
Proof.
  refine (proj2 (proj2
    (create_mode_enters_relay sample_env ["reptyr"; "-l"]%string
       initial_globals (mk_options 0 0 0 0)
       (mk_getopt_state 2 EmptyString 1 1) ["reptyr"; "-l"]%string
       eq_refl eq_refl eq_refl _ _ _ _))
    sample_termios target_eof_round [] eq_refl _ eq_refl).
  - cbn. lia.
  - cbn. lia.
  - cbn. lia.
  - cbn. discriminate.
  - cbn. discriminate.
Defined.

(** * Further properties *)

(** ** [writeall] and the copies *)

Lemma writeall_prefix ws : forall fd buf count g,
  Forall write_conforms (trace (writeall ws fd buf count g)) ->
  exists rest,
    firstn (Z.to_nat count) buf =
    (written fd (trace (writeall ws fd buf count g)) ++ rest)%list.
Proof.
  induction ws as [|w ws IH]; intros fd buf count g Hc; cbn [writeall] in *;
    destruct (Z.gtb_spec count 0) as [Hpos|Hpos];
    try (eexists; reflexivity).
  rewrite bind_emit in *. cbn [trace written] in *.
  inversion Hc as [|e tl Hw Htl]; subst. cbn in Hw.
  rewrite Z.eqb_refl. cbn [andb].
  destruct (Z.ltb_spec (rv w) 0) as [Hneg|Hnn].
  - replace (0 <=? rv w) with false by (symmetry; apply Z.leb_gt; lia).
    destruct (errno w =? EINTR); [now apply IH|].
    eexists. reflexivity.
  - replace (0 <=? rv w) with true by (symmetry; apply Z.leb_le; lia).
    destruct (IH fd (skipn (Z.to_nat (rv w)) buf) (count - rv w) g Htl)
      as [rest Hrest].
    exists rest. rewrite <- app_assoc, <- Hrest, firstn_then_skipn.
    f_equal. lia.
Qed.

(** X1. Whatever [writeall] returns, and also while it has not returned,
    the bytes it has handed to the descriptor are an initial part of the
    first [count] bytes of the buffer: nothing is written twice, out of
    order or beyond the count. *)
Theorem writeall_writes_in_order (ws : list sysret) (fd : Z)
    (buf : list Byte.byte) (count : Z) (g : globals) :
  Forall write_conforms (trace (writeall ws fd buf count g)) ->
  exists rest,
    firstn (Z.to_nat count) buf =
    (written fd (trace (writeall ws fd buf count g)) ++ rest)%list
    /\ (result (writeall ws fd buf count g) = Ret 0 ->
        count <= Z.of_nat (List.length buf) -> rest = []).
Proof.
  intros Hc. destruct (writeall_prefix ws fd buf count g Hc) as [rest Hrest].
  exists rest. split; [exact Hrest|].
  intros Hres Hlen.
  rewrite (writeall_all_written ws fd buf count g Hc Hlen Hres) in Hrest.
  rewrite <- (app_nil_r (firstn _ _)) in Hrest at 1.
  now apply app_inv_head in Hrest.
Qed.

(** X2. Interrupted writes leave no mark: dropping from the script every
    answer that failed with [EINTR] changes neither what [writeall]
    returns nor the bytes it hands to the descriptor. *)
Theorem writeall_ignores_interrupts (ws : list sysret) (fd : Z)
    (buf : list Byte.byte) (count : Z) (g : globals) :
  let ws' := filter (fun w => negb (interrupted_write w)) ws in
  result (writeall ws fd buf count g) = result (writeall ws' fd buf count g)
  /\ written fd (trace (writeall ws fd buf count g)) =
     written fd (trace (writeall ws' fd buf count g)).
Proof.
  cbv zeta. revert buf count.
  induction ws as [|w ws IH]; intros buf count; [split; reflexivity|].
  cbn [filter].
  destruct (Z.gtb_spec count 0) as [Hpos|Hpos].
  - destruct (interrupted_write w) eqn:Hi; cbn [negb];
      unfold interrupted_write in Hi; cbn [writeall];
      replace (count >? 0) with true by (symmetry; apply Z.gtb_lt; lia);
      rewrite ?bind_emit.
    + apply andb_prop in Hi as [Hneg He]. rewrite Hneg, He.
      cbn [result trace written]. apply Z.ltb_lt in Hneg.
      replace (0 <=? rv w) with false by (symmetry; apply Z.leb_gt; lia).
      rewrite andb_false_r. apply IH.
    + destruct (Z.ltb_spec (rv w) 0) as [Hneg|Hnn].
      * cbn [andb] in Hi. rewrite Hi. split; reflexivity.
      * cbn [result trace written].
        destruct (IH (skipn (Z.to_nat (rv w)) buf) (count - rv w)) as [H1 H2].
        split; [exact H1|]. now rewrite H2.
  - assert (Hz : forall l, writeall l fd buf count g = mk_run (Ret 0) g []).
    { intros l. destruct l; cbn [writeall];
        replace (count >? 0) with false
          by (symmetry; rewrite Z.gtb_ltb; apply Z.ltb_ge; lia);
        reflexivity. }
    rewrite !Hz. split; reflexivity.
Qed.

Lemma written_app (fd : Z) (a b : list event) :
  written fd (a ++ b) = (written fd a ++ written fd b)%list.
Proof.
  induction a as [|e a IH]; cbn [app written]; [reflexivity|].
  destruct e; try exact IH.
  destruct ((fd0 =? fd) && (0 <=? rv0)); [|exact IH].
  now rewrite IH, app_assoc.
Qed.

Lemma read_into_data (buf : list Byte.byte) (a : read_answer) :
  0 < rd_count a ->
  rd_count a = Z.of_nat (List.length (rd_data a)) ->
  firstn (Z.to_nat (rd_count a)) (read_into buf a) = rd_data a /\
  rd_count a <= Z.of_nat (List.length (read_into buf a)).
Proof.
  intros Hpos Hlen. unfold read_into.
  replace (rd_count a >? 0) with true by (symmetry; apply Z.gtb_lt; lia).
  rewrite Hlen, Nat2Z.id. split.
  - rewrite firstn_app, Nat.sub_diag, firstn_all. cbn. apply app_nil_r.
  - rewrite length_app. lia.
Qed.

(** What one copy hands over, of the chunk just read. *)
Lemma copy_written (ws : list sysret) (fd : Z) (buf : list Byte.byte)
    (a : read_answer) (g : globals) :
  0 < rd_count a ->
  rd_count a = Z.of_nat (List.length (rd_data a)) ->
  Forall write_conforms
    (trace (writeall ws fd (read_into buf a) (rd_count a) g)) ->
  exists rest,
    rd_data a =
    (written fd (trace (writeall ws fd (read_into buf a) (rd_count a) g))
     ++ rest)%list
    /\ (result (writeall ws fd (read_into buf a) (rd_count a) g) = Ret 0 ->
        rest = []).
Proof.
  intros Hpos Hlen Hc.
  destruct (read_into_data buf a Hpos Hlen) as [Hdata Hfit].
  destruct (writeall_prefix ws fd _ _ g Hc) as [rest Hrest].
  rewrite Hdata in Hrest. exists rest. split; [exact Hrest|].
  intros Hres.
  pose proof (writeall_all_written ws fd _ _ g Hc Hfit Hres) as Hall.
  rewrite Hdata in Hall. rewrite Hall in Hrest.
  rewrite <- (app_nil_r (rd_data a)) in Hrest at 1.
  now apply app_inv_head in Hrest.
Qed.

Lemma relay_local_trace_eq (r : round) (pty : Z) (buf : list Byte.byte)
    (g : globals) :
  w_ready (r_wait r) 0 = true -> 0 <= rd_count (r_read0 r) ->
  trace (relay_local r pty buf g) =
  ReadFd 0 (rd_count (r_read0 r)) ::
  trace (writeall (r_write_pty r) pty (read_into buf (r_read0 r))
           (rd_count (r_read0 r)) g).
Proof.
  intros H0 Hc. unfold relay_local. rewrite H0, bind_emit. cbn [trace].
  replace (rd_count (r_read0 r) <? 0) with false
    by (symmetry; apply Z.ltb_ge; lia).
  rewrite trace_bind.
  destruct (result (writeall _ _ _ _ _)); cbn; now rewrite app_nil_r.
Qed.

Lemma relay_target_trace_eq (r : round) (pty : Z) (buf : list Byte.byte)
    (g : globals) :
  w_ready (r_wait r) pty = true -> 0 < rd_count (r_readpty r) ->
  trace (relay_target r pty buf g) =
  ReadFd pty (rd_count (r_readpty r)) ::
  trace (writeall (r_write_out r) 1 (read_into buf (r_readpty r))
           (rd_count (r_readpty r)) g).
Proof.
  intros H0 Hc. unfold relay_target. rewrite H0, bind_emit. cbn [trace].
  replace (rd_count (r_readpty r) <=? 0) with false
    by (symmetry; apply Z.leb_gt; lia).
  rewrite trace_bind.
  destruct (result (writeall _ _ _ _ _)); cbn; now rewrite app_nil_r.
Qed.

(** X3. The copy towards the target hands to the master an initial part
    of the bytes just read from the local side, and all of them when
    [writeall] returns 0; when [writeall] fails the rest of the chunk is
    dropped, since its result is not looked at.  The copy towards the
    local output does the same on descriptor 1. *)
Theorem relay_copies_bytes (r : round) (pty : Z) (buf : list Byte.byte)
    (g : globals) :
  (w_ready (r_wait r) 0 = true -> 0 < rd_count (r_read0 r) ->
   rd_count (r_read0 r) = Z.of_nat (List.length (rd_data (r_read0 r))) ->
   Forall write_conforms (trace (relay_local r pty buf g)) ->
   exists rest,
     rd_data (r_read0 r) =
     (written pty (trace (relay_local r pty buf g)) ++ rest)%list
     /\ (result (writeall (r_write_pty r) pty (read_into buf (r_read0 r))
                   (rd_count (r_read0 r)) g) = Ret 0 -> rest = []))
  /\ (w_ready (r_wait r) pty = true -> 0 < rd_count (r_readpty r) ->
      rd_count (r_readpty r) = Z.of_nat (List.length (rd_data (r_readpty r))) ->
      Forall write_conforms (trace (relay_target r pty buf g)) ->
      exists rest,
        rd_data (r_readpty r) =
        (written 1 (trace (relay_target r pty buf g)) ++ rest)%list
        /\ (result (writeall (r_write_out r) 1 (read_into buf (r_readpty r))
                      (rd_count (r_readpty r)) g) = Ret 0 -> rest = [])).
Proof.
  split; intros Hready Hpos Hlen Hc.
  - rewrite relay_local_trace_eq in * by (assumption || lia).
    inversion Hc as [|e tl _ Hw]; subst. cbn [written].
    now apply copy_written.
  - rewrite relay_target_trace_eq in * by assumption.
    inversion Hc as [|e tl _ Hw]; subst. cbn [written].
    now apply copy_written.
Qed.

(** The trace of a pass, block by block. *)
Lemma proxy_iteration_trace_eq (pty : Z) (r : round) (buf : list Byte.byte)
    (g : globals) :
  let g' := mk_globals (verbose g)
              match w_signals (r_wait r) with O => 0 | S _ => 1 end in
  trace (proxy_iteration pty r buf g) =
  ((if winch_happened g =? 0 then []
    else trace (resize_pty (r_resize r) pty g)) ++
   Pselect (pty + 1) ::
   (if rv (w_ret (r_wait r)) <? 0 then
      if errno (w_ret (r_wait r)) =? EINTR then []
      else [Stderr "select: %m"]
    else
      trace (relay_local r pty buf g') ++
      match result (relay_local r pty buf g') with
      | Ret (Continue buf1) => trace (relay_target r pty buf1 g')
      | _ => []
      end))%list.
Proof.
  cbv zeta. unfold proxy_iteration.
  rewrite trace_bind, service_winch_run. cbn [result after trace].
  f_equal. rewrite bind_emit. cbn [trace]. f_equal.
  rewrite trace_bind, deliver_winch_run. cbn [result after trace app].
  destruct (rv (w_ret (r_wait r)) <? 0).
  - destruct (errno (w_ret (r_wait r)) =? EINTR); reflexivity.
  - rewrite trace_bind, relay_local_after. f_equal.
    destruct (result (relay_local _ _ _ _)) as [[b|]|]; reflexivity.
Qed.

(** X4. Each of the three causes does end the pass it shows up in: after
    a wait error the message is the last thing done; after a failed read
    of the local side nothing is written and the target is not read;
    and, the local side not being ready, a read of the target that fails
    or finds its end is the last call of the session's relay. *)
Theorem relay_causes_end_pass (pty : Z) (r : round) (buf : list Byte.byte)
    (g : globals) :
  let top := if winch_happened g =? 0 then []
             else trace (resize_pty (r_resize r) pty g) in
  (wait_error r ->
     result (proxy_iteration pty r buf g) = Ret Return /\
     trace (proxy_iteration pty r buf g) =
     (top ++ [Pselect (pty + 1); Stderr "select: %m"])%list)
  /\ (local_read_failure r ->
        result (proxy_iteration pty r buf g) = Ret Return /\
        trace (proxy_iteration pty r buf g) =
        (top ++ [Pselect (pty + 1); ReadFd 0 (rd_count (r_read0 r))])%list)
  /\ (target_read_end pty r -> w_ready (r_wait r) 0 = false ->
        result (proxy_iteration pty r buf g) = Ret Return /\
        trace (proxy_iteration pty r buf g) =
        (top ++ [Pselect (pty + 1); ReadFd pty (rd_count (r_readpty r))])%list).
Proof.
  cbv zeta. rewrite proxy_iteration_result, proxy_iteration_trace_eq.
  cbv zeta. unfold wait_error, local_read_failure, target_read_end.
  split; [|split].
  - intros [Hrv Herr].
    replace (rv (w_ret (r_wait r)) <? 0) with true
      by (symmetry; apply Z.ltb_lt; lia).
    apply Z.eqb_neq in Herr. rewrite Herr. split; reflexivity.
  - intros [Hrv [H0 Hc]].
    replace (rv (w_ret (r_wait r)) <? 0) with false
      by (symmetry; apply Z.ltb_ge; lia).
    unfold relay_local. rewrite H0, bind_emit. cbn [result trace].
    replace (rd_count (r_read0 r) <? 0) with true
      by (symmetry; apply Z.ltb_lt; lia).
    split; reflexivity.
  - intros [Hrv [Hp Hc]] H0.
    replace (rv (w_ret (r_wait r)) <? 0) with false
      by (symmetry; apply Z.ltb_ge; lia).
    unfold relay_local. rewrite H0. cbn [result trace ret app].
    unfold relay_target. rewrite Hp, bind_emit. cbn [result trace].
    replace (rd_count (r_readpty r) <=? 0) with true
      by (symmetry; apply Z.leb_le; lia).
    split; reflexivity.
Qed.

(** X5. A wait that a window change interrupts is followed, at the top
    of the next pass and before the next wait, by one [resize_pty] with
    the answers of that moment; a wait interrupted without the handler
    having run is followed by the next wait directly. *)
Theorem resize_follows_signal (pty : Z) (r1 r2 : round) (rs : list round)
    (buf : list Byte.byte) (g : globals) :
  rv (w_ret (r_wait r1)) < 0 ->
  errno (w_ret (r_wait r1)) = EINTR ->
  exists tail,
    trace (proxy_loop pty (r1 :: r2 :: rs) buf g) =
    (trace (proxy_iteration pty r1 buf g) ++
     match w_signals (r_wait r1) with
     | O => []
     | S _ => GetWinsize 0 ::
              match rz_get (r_resize r2) with
              | Some sz => [SetWinsize pty sz]
              | None => tl (fallback_events (r_resize r2) pty)
              end
     end ++
     Pselect (pty + 1) :: tail)%list.
Proof.
  intros Hrv Herr.
  assert (Hres : result (proxy_iteration pty r1 buf g) = Ret (Continue buf)).
  { rewrite proxy_iteration_result. cbv zeta.
    replace (rv (w_ret (r_wait r1)) <? 0) with true
      by (symmetry; apply Z.ltb_lt; lia).
    now rewrite Herr, Z.eqb_refl. }
  destruct (proxy_iteration_run pty r1 buf g) as [t1 [Hrun1 _]].
  set (g1 := mk_globals (verbose g)
               match w_signals (r_wait r1) with O => 0 | S _ => 1 end) in *.
  assert (Hafter : after (proxy_iteration pty r1 buf g) = g1)
    by (now rewrite Hrun1).
  assert (Htop : (if winch_happened g1 =? 0 then []
                  else trace (resize_pty (r_resize r2) pty g1)) =
                 match w_signals (r_wait r1) with
                 | O => []
                 | S _ => GetWinsize 0 ::
                          match rz_get (r_resize r2) with
                          | Some sz => [SetWinsize pty sz]
                          | None => tl (fallback_events (r_resize r2) pty)
                          end
                 end).
  { rewrite resize_pty_run. cbn [trace]. unfold g1. cbn [winch_happened].
    destruct (w_signals (r_wait r1)); cbn [Z.eqb]; [reflexivity|].
    destruct (rz_get (r_resize r2)); reflexivity. }
  cbn [proxy_loop]. rewrite trace_bind, Hres, Hafter, trace_bind.
  rewrite (proxy_iteration_trace_eq pty r2 buf g1). cbv zeta.
  rewrite Htop. eexists. f_equal. rewrite <- app_assoc. f_equal.
  rewrite <- app_comm_cons. reflexivity.
Qed.

(** ** The session *)

Lemma setup_raw_ret (e : env) (g : globals) (saved : termios) :
  result (setup_raw (e_raw e) (e_junk_termios e) g) = Ret saved ->
  saved = session_snapshot e.
Proof.
  unfold setup_raw, session_snapshot. rewrite bind_emit. cbn [result].
  destruct (t_get (e_raw e)) as [cur|]; [|now intros [= <-]].
  rewrite bind_emit. cbn [result].
  destruct (t_set (e_raw e) <? 0); [discriminate|now intros [= <-]].
Qed.

Lemma restore_loop_ret (saved : termios) : forall answers g,
  result (restore_loop answers saved g) = Ret tt ->
  exists k, trace (restore_loop answers saved g) =
            (repeat (Tcsetattr 0 saved) k ++ [Tcsetattr 0 saved])%list.
Proof.
  induction answers as [|a rest IH]; intros g; cbn [restore_loop];
    [discriminate|].
  rewrite bind_emit. cbn [result trace].
  destruct (negb (rv a =? 0) && negb (errno a =? EINTR)); [discriminate|].
  destruct (errno a =? EINTR).
  - intros H. destruct (IH g H) as [k Hk]. exists (S k). now rewrite Hk.
  - intros _. exists O. reflexivity.
Qed.

Lemma session_restores_snapshot_aux (e : env) (pty : Z) (g : globals) (v : Z) :
  result (relay_session e pty g) = Ret v ->
  v = 0 /\
  exists before,
    trace (relay_session e pty g) =
    (before ++ [Tcsetattr 0 (session_snapshot e)])%list.
Proof.
  unfold relay_session. rewrite result_bind, trace_bind.
  destruct (result (setup_raw _ _ g)) as [saved|] eqn:Es; [|discriminate].
  apply setup_raw_ret in Es. subst saved. rewrite setup_raw_after.
  rewrite result_bind, trace_bind.
  destruct (result (do_proxy _ pty g)) as [[]|]; [|discriminate].
  rewrite result_bind, trace_bind.
  destruct (result (restore_loop _ _ _)) as [[]|] eqn:Er; [|discriminate].
  cbn [ret result trace]. intros [= <-]. split; [reflexivity|].
  destruct (restore_loop_ret _ _ _ Er) as [k Hk]. rewrite Hk, app_nil_r.
  eexists. rewrite !app_assoc. reflexivity.
Qed.

(** X6. A session that returns has status 0 and the last thing it did
    was to apply the snapshot to the terminal: the attributes read by
    [setup_raw], or the untouched variable when they could not be read. *)
Theorem session_restores_snapshot (e : env) (pty : Z) (g : globals) (v : Z) :
  result (relay_session e pty g) = Ret v ->
  v = 0 /\
  exists before,
    trace (relay_session e pty g) =
    (before ++ [Tcsetattr 0 (session_snapshot e)])%list.
Proof. apply session_restores_snapshot_aux. Qed.

(** X7. When the terminal cannot be put into raw mode the process dies
    with status 1 at once: the relay is not started and nothing is
    restored, the attributes being those that were read. *)
Theorem raw_mode_failure_is_fatal (e : env) (pty : Z) (g : globals)
    (cur : termios) :
  t_get (e_raw e) = Some cur ->
  t_set (e_raw e) < 0 ->
  relay_session e pty g =
  mk_run (Halt (Exit 1)) g
    [Tcgetattr 0; Tcsetattr 0 (Termios.cfmakeraw cur);
     Stderr "[!] Unable to set terminal attributes: %m"].
Proof.
  intros Hget Hset. unfold relay_session.
  assert (Hs : setup_raw (e_raw e) (e_junk_termios e) g =
               mk_run (Halt (Exit 1)) g
                 [Tcgetattr 0; Tcsetattr 0 (Termios.cfmakeraw cur);
                  Stderr "[!] Unable to set terminal attributes: %m"]).
  { unfold setup_raw. rewrite bind_emit, Hget, bind_emit.
    replace (t_set (e_raw e) <? 0) with true
      by (symmetry; apply Z.ltb_lt; lia).
    reflexivity. }
  unfold bind at 1. now rewrite Hs.
Qed.

(** X8. When the signal mask cannot be set, [do_proxy] gives up before
    installing the handler, sizing the target or waiting; the session
    then restores the terminal it has just made raw and [main] returns 0
    as after a relay. *)
Theorem sigprocmask_failure_ends_session (e : env) (pty : Z) (g : globals)
    (cur : termios) (a : sysret) (rest : list sysret) :
  px_sigprocmask (e_proxy e) = -1 ->
  t_get (e_raw e) = Some cur ->
  0 <= t_set (e_raw e) ->
  e_restore e = a :: rest ->
  rv a = 0 -> errno a <> EINTR ->
  relay_session e pty g =
  mk_run (Ret 0) g
    [Tcgetattr 0; Tcsetattr 0 (Termios.cfmakeraw cur);
     Sigprocmask; Stderr "sigprocmask: %m"; Tcsetattr 0 cur].
Proof.
  intros Hsig Hget Hset Hr Hrv Herr. unfold relay_session.
  assert (Hs : setup_raw (e_raw e) (e_junk_termios e) g =
               mk_run (Ret cur) g
                 [Tcgetattr 0; Tcsetattr 0 (Termios.cfmakeraw cur)]).
  { unfold setup_raw. rewrite bind_emit, Hget, bind_emit.
    replace (t_set (e_raw e) <? 0) with false
      by (symmetry; apply Z.ltb_ge; lia).
    reflexivity. }
  assert (Hp : do_proxy (e_proxy e) pty g =
               mk_run (Ret tt) g [Sigprocmask; Stderr "sigprocmask: %m"]).
  { unfold do_proxy. rewrite bind_emit, Hsig. reflexivity. }
  assert (Hl : restore_loop (e_restore e) cur g =
               mk_run (Ret tt) g [Tcsetattr 0 cur]).
  { rewrite Hr. cbn [restore_loop]. rewrite bind_emit, Hrv.
    apply Z.eqb_neq in Herr. rewrite Herr. reflexivity. }
  rewrite (bind_run _ _ _ _ _ _ Hs), (bind_run _ _ _ _ _ _ Hp),
    (bind_run _ _ _ _ _ _ Hl).
  reflexivity.
Qed.

(** ** The pid argument and the options *)

Lemma parse_pid_decimal (ws sign ds : string) (g : globals) :
  all_chars isspace ws = true ->
  sign = EmptyString \/ sign = "+"%string ->
  ds <> EmptyString ->
  all_chars isdigit ds = true ->
  1 <= decimal_value 0 ds <= INT_MAX ->
  parse_pid (ws ++ sign ++ ds) g = mk_run (Ret (decimal_value 0 ds)) g [].
Proof.
  intros Hws Hsign Hne Hds Hrange.
  unfold parse_pid. rewrite strtol_valid; try assumption;
    [|unfold LONG_MAX, INT_MAX in *; lia].
  cbn [st_errno st_endptr st_value deref].
  change (0 =? ERANGE) with false. change (negb (0 =? 0)) with false.
  cbv iota. rewrite to_int_small by (unfold INT_MAX in *; lia).
  replace (decimal_value 0 ds <? decimal_value 0 ds) with false
    by (symmetry; apply Z.ltb_irrefl).
  replace (decimal_value 0 ds <? 1) with false
    by (symmetry; apply Z.ltb_ge; lia).
  reflexivity.
Qed.

(** X9. The pid check accepts exactly the valid strings: white space and
    a plus sign as [strtol] allows them, then only digits, with a value
    from 1 to the largest [pid_t]; the pid it returns is the decimal
    value of the digits, and it prints nothing. *)
Theorem pid_accepted_iff_valid (s : string) (g : globals) :
  is_cstring s ->
  ((exists child, result (parse_pid s g) = Ret child) <-> valid_pid_string s)
  /\ (forall ws sign ds,
        s = (ws ++ sign ++ ds)%string ->
        all_chars isspace ws = true ->
        sign = EmptyString \/ sign = "+"%string ->
        ds <> EmptyString ->
        all_chars isdigit ds = true ->
        1 <= decimal_value 0 ds <= INT_MAX ->
        parse_pid s g = mk_run (Ret (decimal_value 0 ds)) g []).
Proof.
  intros Hcs. split; [split|].
  - intros [child H]. exact (parse_pid_accepts s g child Hcs H).
  - intros Hv. destruct (parse_pid_valid s g Hv) as [child [H _]].
    exists child. now rewrite H.
  - intros ws sign ds -> Hws Hsign Hne Hds Hrange.
    now apply parse_pid_decimal.
Qed.

(** X10. The option loop of [main] always comes to an end, in one of two
    ways.  It hands on the flags, the state of [getopt] and the permuted
    [argv], which has the length and the first element of the original,
    without having printed or called anything; or the process leaves:
    with status 0 after the usage alone ([-h]) or the three lines of the
    version ([-v]), or with status 1 after the complaint of [getopt]
    about an option it does not know, followed by the usage.  An unknown
    option is found wherever it stands: [reptyr 42 -x] leaves in the
    last way. *)
Theorem options_return_or_print (p : bool) (argv : list string) (g : globals) :
  let r := option_loop (option_fuel argv) p argv getopt_start
             initial_options g in
  ((exists o st argv',
      result r = Ret (o, st, argv') /\ trace r = [] /\
      List.length argv' = List.length argv /\
      nth 0 argv' EmptyString = nth 0 argv EmptyString)
   \/ (exists out,
         result r = Halt out /\
         option_exit (nth 0 argv EmptyString) out (trace r)))
  /\ program sample_env ["reptyr"; "42"; "-x"]%string =
     (Exit 1, [Stderr "%s: invalid option -- '%c'\n"; Usage "reptyr"]).
Proof. cbv zeta. split; [apply options_run|reflexivity]. Qed.

(** X11. The options never touch the resize flag, and they can only
    switch [verbose] on; with [-V] as the first argument [debug] prints
    its line, prefixed, once the options are done. *)
Theorem verbose_option_enables_debug (p : bool) (argv : list string)
    (g : globals) (o : options) (st : getopt_state) (argv' : list string) :
  result (option_loop (option_fuel argv) p argv getopt_start
            initial_options g) = Ret (o, st, argv') ->
  let g' := after (option_loop (option_fuel argv) p argv getopt_start
                     initial_options g) in
  winch_happened g' = winch_happened g
  /\ (verbose g' = verbose g \/ verbose g' = 1)
  /\ (nth_error argv 1 = Some "-V"%string ->
      forall msg, debug msg g' = mk_run (Ret tt) g' [Stderr ("[+] " ++ msg)]).
Proof.
  intros Hres g'.
  destruct (option_loop_globals p (option_fuel argv) argv getopt_start
              initial_options g) as [Hw Hv].
  split; [exact Hw|split; [exact Hv|]].
  intros HV msg.
  assert (Hverb : verbose g' = 1).
  { destruct argv as [|me [|a1 rest]]; try discriminate.
    injection HV as ->.
    assert (Hg : getopt p (me :: "-V" :: rest)%string "hlLsTvV" getopt_start g =
                 mk_run (Ret (code "V"%char,
                              mk_getopt_state 2 EmptyString 1 1,
                              (me :: "-V" :: rest)%string)) g [])
      by (destruct p; reflexivity).
    unfold g', option_fuel. cbn [option_loop].
    rewrite (bind_run _ _ _ _ _ _ Hg). cbv beta iota. cbn [after].
    change (code "V" =? -1) with false. cbv beta iota.
    rewrite after_bind.
    change (option_switch (nth 0 (me :: "-V" :: rest)%string EmptyString)
              (code "V") initial_options g)
      with (mk_run (Ret initial_options) (mk_globals 1 (winch_happened g))
              (@nil event)).
    cbn [result after].
    change ((code "V" =? code "l") || (code "V" =? code "L")) with false.
    cbv beta iota.
    destruct (option_loop_globals p
                (total_length (me :: "-V" :: rest)%string)
                (me :: "-V" :: rest)%string
                (mk_getopt_state 2 EmptyString 1 1) initial_options
                (mk_globals 1 (winch_happened g))) as [_ [H|H]]; exact H. }
  unfold debug. rewrite bind_get, Hverb. reflexivity.
Qed.

(** ** The modes of [main] *)

Lemma bind_assoc {A B C} (m : M A) (f : A -> M B) (k : B -> M C)
    (g : globals) :
  bind (bind m f) k g = bind m (fun x => bind (f x) k) g.
Proof.
  unfold bind. destruct (result (m g)) as [a|o]; cbn [result after trace];
    [|reflexivity].
  destruct (result (f a (after (m g)))); cbn [result after trace];
    now rewrite ?app_assoc.
Qed.

(** X12. In attach mode, with no argument left after the options, the
    process leaves with status 1 after the message and the usage: no
    pseudo-terminal is asked for and nothing else is called. *)
Theorem missing_pid_rejected (e : env) (argv : list string) (g : globals)
    (o : options) (st : getopt_state) (argv' : list string) :
  result (option_loop (option_fuel argv) (e_posixly_correct e) argv
            getopt_start initial_options g) = Ret (o, st, argv') ->
  do_attach o <> 0 ->
  (List.length argv <= optind st)%nat ->
  result (main e argv g) = Halt (Exit 1)
  /\ trace (main e argv g) =
     [Stderr "%s: No pid specified to attach\n"; Usage (nth 0 argv EmptyString)].
Proof.
  intros Hol Hatt Hlen.
  destruct (main_run e argv g o st argv' Hol) as [-> [L <-]].
  unfold main_after_options.
  apply Z.eqb_neq in Hatt. rewrite Hatt.
  replace (List.length argv' <=? optind st)%nat with true
    by (symmetry; apply Nat.leb_le; lia).
  split; reflexivity.
Qed.

(** X13. Without [-T] anywhere among the options, a failure to
    allocate, unlock or grant the pseudo-terminal ends the process with
    status 1 in either mode, before the pid is looked at; a step that
    failed is the last one tried.  A [-T] behind the pid counts:
    [reptyr 42 -T] asks for no pseudo-terminal and goes straight to the
    steal, also where [get_pt] would have failed. *)
Theorem allocation_failure_is_fatal (e : env) (argv : list string)
    (g : globals) (o : options) (st : getopt_state) (argv' : list string) :
  result (option_loop (option_fuel argv) (e_posixly_correct e) argv
            getopt_start initial_options g) = Ret (o, st, argv') ->
  do_attach o = 0 \/ (optind st < List.length argv)%nat ->
  do_steal o = 0 ->
  e_get_pt e < 0 \/ e_unlockpt e < 0 \/ e_grantpt e < 0 ->
  result (main e argv g) = Halt (Exit 1)
  /\ trace (main e argv g) =
     GetPt ::
     (if e_get_pt e <? 0
      then [Stderr "[!] Unable to allocate a new pseudo-terminal: %m"]
      else Unlockpt (e_get_pt e) ::
           (if e_unlockpt e <? 0 then [Stderr "[!] Unable to unlockpt: %m"]
            else [Grantpt (e_get_pt e); Stderr "[!] Unable to grantpt: %m"]))
  /\ (exists tail,
        snd (program sample_nopty_env ["reptyr"; "42"; "-T"]%string) =
        StealPty 42 :: tail).
Proof.
  intros Hol Hmode Hsteal Hfail.
  destruct (main_run e argv g o st argv' Hol) as [-> [L _]].
  unfold main_after_options.
  assert (Hc : negb (do_attach o =? 0) &&
               (List.length argv' <=? optind st)%nat = false).
  { destruct Hmode as [H|H].
    - now rewrite H.
    - replace (List.length argv' <=? optind st)%nat with false
        by (symmetry; apply Nat.leb_gt; lia).
      apply andb_false_r. }
  rewrite Hc. rewrite result_bind, trace_bind.
  assert (Hex : exists tail,
            snd (program sample_nopty_env ["reptyr"; "42"; "-T"]%string) =
            StealPty 42 :: tail)
    by (eexists; vm_compute; reflexivity).
  unfold allocate_pty. rewrite Hsteal. cbn [Z.eqb]. rewrite bind_emit.
  cbn [result trace after].
  destruct (Z.ltb_spec (e_get_pt e) 0) as [H1|H1]; [auto|].
  rewrite bind_emit. cbn [result trace after].
  destruct (Z.ltb_spec (e_unlockpt e) 0) as [H2|H2]; [auto|].
  rewrite bind_emit. cbn [result trace after].
  destruct (Z.ltb_spec (e_grantpt e) 0) as [H3|H3]; [auto|].
  lia.
Qed.

Lemma main_attach_run (e : env) (argv : list string) (g : globals)
    (o : options) (st : getopt_state) (argv' : list string) :
  result (option_loop (option_fuel argv) (e_posixly_correct e) argv
            getopt_start initial_options g) = Ret (o, st, argv') ->
  do_attach o <> 0 ->
  (optind st < List.length argv)%nat ->
  main e argv g =
  bind (allocate_pty e o)
    (fun pty =>
       bind (attach_branch e o (nth (optind st) argv' EmptyString) pty)
         (fun pty' => relay_session e pty'))
    (after (option_loop (option_fuel argv) (e_posixly_correct e) argv
              getopt_start initial_options g)).
Proof.
  intros Hol Hatt Hind.
  destruct (main_run e argv g o st argv' Hol) as [-> [L _]].
  unfold main_after_options.
  replace (List.length argv' <=? optind st)%nat with false
    by (symmetry; apply Nat.leb_gt; lia).
  rewrite andb_false_r. apply Z.eqb_neq in Hatt. rewrite Hatt. reflexivity.
Qed.

(** X14. Attaching to a valid pid that the platform layer refuses ends
    the process with status 1 after its message, with the hint about
    ptrace exactly when the error is [EPERM]; the terminal is not
    touched and the relay is not started.  The flag passed on is the
    one the option loop has handed on. *)
Theorem attach_failure_exits (e : env) (argv : list string) (g : globals)
    (o : options) (st : getopt_state) (argv' : list string) (child : Z) :
  result (option_loop (option_fuel argv) (e_posixly_correct e) argv
            getopt_start initial_options g) = Ret (o, st, argv') ->
  do_attach o <> 0 ->
  (optind st < List.length argv)%nat ->
  (forall g0, parse_pid (nth (optind st) argv' EmptyString) g0 =
              mk_run (Ret child) g0 []) ->
  do_steal o = 0 ->
  0 <= e_get_pt e -> 0 <= e_unlockpt e -> 0 <= e_grantpt e ->
  e_attach_child e <> 0 ->
  result (main e argv g) = Halt (Exit 1)
  /\ trace (main e argv g) =
     ([GetPt; Unlockpt (e_get_pt e); Grantpt (e_get_pt e);
       AttachChild child (e_ptsname e (e_get_pt e)) (force_stdio o);
       Stderr "Unable to attach to pid %d: %s\n"] ++
      (if e_attach_child e =? EPERM then [PtraceScopeHint] else []))%list.
Proof.
  intros Hol Hatt Hind Hpid Hsteal H1 H2 H3 Herr.
  rewrite (main_attach_run e argv g o st argv' Hol Hatt Hind).
  rewrite (bind_run _ _ _ _ _ _ (allocate_pty_ok e o _ Hsteal H1 H2 H3)).
  unfold attach_branch.
  set (g' := after (option_loop _ _ _ _ _ _)).
  rewrite result_bind, trace_bind. cbn [result trace].
  rewrite (bind_run _ _ _ _ _ _ (Hpid g')).
  rewrite Hsteal. cbn [Z.eqb negb]. rewrite bind_assoc, bind_emit, bind_ret.
  apply Z.eqb_neq in Herr. rewrite Herr. cbn [negb].
  rewrite bind_emit. cbn [result trace app].
  destruct (e_attach_child e =? EPERM); split; reflexivity.
Qed.

(** X15. Attaching to a valid pid that the platform layer accepts: the
    new pseudo-terminal is allocated, its slave's path and the
    force-stdio flag, as the whole command line has set it, are passed
    on with the pid, and the session then runs on the new master. *)
Theorem attach_success_relays (e : env) (argv : list string) (g : globals)
    (o : options) (st : getopt_state) (argv' : list string) (child : Z) :
  result (option_loop (option_fuel argv) (e_posixly_correct e) argv
            getopt_start initial_options g) = Ret (o, st, argv') ->
  do_attach o <> 0 ->
  (optind st < List.length argv)%nat ->
  (forall g0, parse_pid (nth (optind st) argv' EmptyString) g0 =
              mk_run (Ret child) g0 []) ->
  do_steal o = 0 ->
  0 <= e_get_pt e -> 0 <= e_unlockpt e -> 0 <= e_grantpt e ->
  e_attach_child e = 0 ->
  let g' := after (option_loop (option_fuel argv) (e_posixly_correct e)
                     argv getopt_start initial_options g) in
  result (main e argv g) = result (relay_session e (e_get_pt e) g')
  /\ trace (main e argv g) =
     ([GetPt; Unlockpt (e_get_pt e); Grantpt (e_get_pt e);
       AttachChild child (e_ptsname e (e_get_pt e)) (force_stdio o)] ++
      trace (relay_session e (e_get_pt e) g'))%list.
Proof.
  intros Hol Hatt Hind Hpid Hsteal H1 H2 H3 Herr g'.
  rewrite (main_attach_run e argv g o st argv' Hol Hatt Hind). fold g'.
  rewrite (bind_run _ _ _ _ _ _ (allocate_pty_ok e o _ Hsteal H1 H2 H3)).
  assert (Hb : attach_branch e o (nth (optind st) argv' EmptyString)
                 (e_get_pt e) g' =
               mk_run (Ret (e_get_pt e)) g'
                 [AttachChild child (e_ptsname e (e_get_pt e)) (force_stdio o)]).
  { unfold attach_branch. rewrite (bind_run _ _ _ _ _ _ (Hpid g')).
    rewrite Hsteal. cbn [Z.eqb negb]. rewrite bind_assoc, bind_emit, bind_ret, Herr.
    reflexivity. }
  rewrite (bind_run _ _ _ _ _ _ Hb). cbn [result trace]. split; reflexivity.
Qed.

(** X16. With [-T], and the option loop having handed on, no
    pseudo-terminal is allocated: the steal is asked for the valid pid,
    and when it succeeds the session runs on the descriptor it gave
    back; when it fails the process leaves with status 1 as for a failed
    attach.  The option loop reads the whole command line first:
    [reptyr -T 42 -h] prints the usage and leaves with status 0 without
    a steal. *)
Theorem steal_relays_on_stolen_terminal (e : env) (argv : list string)
    (g : globals) (o : options) (st : getopt_state) (argv' : list string) (child : Z) :
  result (option_loop (option_fuel argv) (e_posixly_correct e) argv
            getopt_start initial_options g) = Ret (o, st, argv') ->
  do_attach o <> 0 ->
  (optind st < List.length argv)%nat ->
  (forall g0, parse_pid (nth (optind st) argv' EmptyString) g0 =
              mk_run (Ret child) g0 []) ->
  do_steal o <> 0 ->
  let g' := after (option_loop (option_fuel argv) (e_posixly_correct e)
                     argv getopt_start initial_options g) in
  (fst (e_steal_pty e) = 0 ->
     result (main e argv g) = result (relay_session e (snd (e_steal_pty e)) g')
     /\ trace (main e argv g) =
        StealPty child :: trace (relay_session e (snd (e_steal_pty e)) g'))
  /\ (fst (e_steal_pty e) <> 0 ->
        result (main e argv g) = Halt (Exit 1)
        /\ trace (main e argv g) =
           ([StealPty child; Stderr "Unable to attach to pid %d: %s\n"] ++
            (if fst (e_steal_pty e) =? EPERM then [PtraceScopeHint]
             else []))%list)
  /\ program sample_env ["reptyr"; "-T"; "42"; "-h"]%string =
     (Exit 0, [Usage "reptyr"]).
Proof.
  intros Hol Hatt Hind Hpid Hsteal g'.
  cut ((fst (e_steal_pty e) = 0 ->
        result (main e argv g) =
        result (relay_session e (snd (e_steal_pty e)) g')
        /\ trace (main e argv g) =
           StealPty child :: trace (relay_session e (snd (e_steal_pty e)) g'))
       /\ (fst (e_steal_pty e) <> 0 ->
           result (main e argv g) = Halt (Exit 1)
           /\ trace (main e argv g) =
              ([StealPty child; Stderr "Unable to attach to pid %d: %s\n"] ++
               (if fst (e_steal_pty e) =? EPERM then [PtraceScopeHint]
                else []))%list)).
  { intros [Ha Hb]. split; [exact Ha|split; [exact Hb|reflexivity]]. }
  rewrite (main_attach_run e argv g o st argv' Hol Hatt Hind). fold g'.
  destruct (allocate_pty_cases e o g') as [Hjunk _].
  rewrite (bind_run _ _ _ _ _ _ (Hjunk Hsteal)). cbn [app].
  unfold attach_branch.
  apply Z.eqb_neq in Hsteal.
  split; intros Herr.
  - rewrite result_bind, trace_bind.
    rewrite (bind_run _ _ _ _ _ _ (Hpid g')).
    rewrite Hsteal. cbn [negb]. rewrite bind_assoc, bind_emit, bind_ret, Herr.
    cbn [Z.eqb negb ret result after trace app]. split; reflexivity.
  - rewrite result_bind, trace_bind.
    rewrite (bind_run _ _ _ _ _ _ (Hpid g')).
    rewrite Hsteal. cbn [negb]. rewrite bind_assoc, bind_emit, bind_ret.
    apply Z.eqb_neq in Herr. rewrite Herr. cbn [negb].
    rewrite bind_emit. cbn [result trace app].
    destruct (fst (e_steal_pty e) =? EPERM); split; reflexivity.
Qed.

Lemma create_options (p : bool) (me cmd : string) (args : list string)
    (g : globals) (redirect : bool) :
  let argv := me :: (if redirect then "-L" else "-l")%string :: cmd :: args in
  option_loop (option_fuel argv) p argv getopt_start initial_options g =
  mk_run (Ret (mk_options 0 0 0 (if redirect then 1 else 0),
               mk_getopt_state 2 EmptyString 1 1, argv)) g [].
Proof. destruct redirect, p; reflexivity. Qed.

Lemma emit_run {A} (ev : event) (k : unit -> M A) (g g' : globals)
    (r : res A) (tr : list event) :
  k tt g = mk_run r g' tr ->
  bind (emit ev) k g = mk_run r g' (ev :: tr).
Proof. intros H. rewrite bind_emit, H. reflexivity. Qed.

Lemma bind_halt_run {A B} (m : M A) (k : A -> M B) (g g1 : globals)
    (o : outcome) (tr : list event) :
  m g = mk_run (Halt o) g1 tr ->
  bind m k g = mk_run (Halt o) g1 tr.
Proof. intros H. unfold bind. rewrite H. reflexivity. Qed.

(** The child, from [setenv] to [execvp]. *)
Lemma child_branch_run (e : env) (o : options) (argv : list string)
    (pty : Z) (g : globals) :
  child_branch e o argv pty g =
  mk_run
    (Halt (if e_execvp_fails e then Exit 1
           else ExecImage (nth 2 argv EmptyString) (skipn 2 argv)))
    g
    (Setenv "REPTYR_PTY" (e_ptsname e pty) 1 ::
     (if negb (unattached_script_redirection o =? 0)
      then redirect_events e pty else []) ++
     [Close pty; Execvp (nth 2 argv EmptyString) (skipn 2 argv)])%list.
Proof.
  unfold child_branch. apply emit_run.
  assert (Hblock :
            (if negb (unattached_script_redirection o =? 0)
             then
               bind (emit Setpgid) (fun _ =>
               bind (emit Setsid) (fun _ =>
               bind (emit (Open (e_ptsname e pty) O_RDONLY)) (fun _ =>
               bind (emit (Dup2 (e_open_rd e) 0)) (fun _ =>
               bind (emit (Close (e_open_rd e))) (fun _ =>
               bind (emit (Open (e_ptsname e pty) O_WRONLY)) (fun _ =>
               bind (emit (Dup2 (e_open_wr e) 1)) (fun _ =>
               bind (emit (Dup2 (e_open_wr e) 2)) (fun _ =>
               emit (Close (e_open_wr e))))))))))
             else ret tt) g =
            mk_run (Ret tt) g
              (if negb (unattached_script_redirection o =? 0)
               then redirect_events e pty else [])).
  { destruct (negb (unattached_script_redirection o =? 0)); [|reflexivity].
    unfold redirect_events. repeat apply emit_run. reflexivity. }
  rewrite (bind_run _ _ _ _ _ _ Hblock). cbn [result after trace].
  rewrite bind_emit, bind_emit. cbn [result after trace].
  destruct (e_execvp_fails e); reflexivity.
Qed.

Lemma create_branch_child_run (e : env) (o : options) (me flag cmd : string)
    (args : list string) (pty : Z) (g : globals) :
  e_fork e = 0 ->
  create_branch e o (me :: flag :: cmd :: args) pty g =
  mk_run
    (Halt (if e_execvp_fails e then Exit 1 else ExecImage cmd (cmd :: args)))
    g
    (Stdout ("Opened a new pty: " ++ e_ptsname e pty ++ newline) :: Fork ::
     Setenv "REPTYR_PTY" (e_ptsname e pty) 1 ::
     (if negb (unattached_script_redirection o =? 0)
      then redirect_events e pty else []) ++
     [Close pty; Execvp cmd (cmd :: args)])%list.
Proof.
  intros Hfork. unfold create_branch. apply emit_run.
  cbn [List.length Nat.ltb Nat.leb]. apply emit_run.
  rewrite Hfork. cbn [Z.eqb]. apply child_branch_run.
Qed.

(** X17. [reptyr -l COMMAND ARGS] and [reptyr -L COMMAND ARGS], seen from
    the child: after the allocation and the printed path it sets
    [REPTYR_PTY] to the slave's path, with [-L] becomes a session leader
    and binds descriptors 0, 1 and 2 to the slave, closes the master and
    executes the command with its arguments; it leaves with status 1
    when that fails, and never touches the terminal or the relay. *)
Theorem create_child_runs_command (e : env) (me cmd : string)
    (args : list string) (g : globals) (redirect : bool) :
  0 <= e_get_pt e -> 0 <= e_unlockpt e -> 0 <= e_grantpt e ->
  e_fork e = 0 ->
  let argv := me :: (if redirect then "-L" else "-l")%string :: cmd :: args in
  let pty := e_get_pt e in
  main e argv g =
  mk_run
    (Halt (if e_execvp_fails e then Exit 1 else ExecImage cmd (cmd :: args)))
    g
    ([GetPt; Unlockpt pty; Grantpt pty;
      Stdout ("Opened a new pty: " ++ e_ptsname e pty ++ newline); Fork;
      Setenv "REPTYR_PTY" (e_ptsname e pty) 1] ++
     (if redirect then redirect_events e pty else []) ++
     [Close pty; Execvp cmd (cmd :: args)])%list.
Proof.
  intros H1 H2 H3 Hfork argv pty.
  pose proof (create_options (e_posixly_correct e) me cmd args g redirect)
    as Hol.
  cbv zeta in Hol. fold argv in Hol.
  destruct (main_run e argv g _ _ _ (f_equal result Hol)) as [-> _].
  rewrite Hol.
  cbn [after]. unfold main_after_options. cbn [do_attach Z.eqb negb andb].
  rewrite (bind_run _ _ _ _ _ _
             (allocate_pty_ok e
                (mk_options 0 0 0 (if redirect then 1 else 0)) g
                eq_refl H1 H2 H3)). fold pty. unfold argv.
  rewrite (bind_halt_run _ _ _ _ _ _
             (bind_halt_run _ _ _ _ _ _
                (create_branch_child_run e _ me _ cmd args pty g Hfork))).
  cbn [result after trace unattached_script_redirection].
  destruct redirect; reflexivity.
Qed.

(** ** The exit status *)

Section Outcomes.

Variable P : outcome -> Prop.
Hypothesis P_exit0 : P (Exit 0).
Hypothesis P_exit1 : P (Exit 1).
Hypothesis P_unfinished : P Unfinished.

Lemma bind_halts_in {A B} (m : M A) (k : A -> M B) (g : globals) :
  halts_in P (m g) ->
  (forall a, result (m g) = Ret a -> halts_in P (k a (after (m g)))) ->
  halts_in P (bind m k g).
Proof.
  unfold halts_in. rewrite result_bind.
  destruct (result (m g)) as [a|o]; [|auto].
  intros _ H. now apply H.
Qed.

Lemma writeall_halts_in ws : forall fd buf count g,
  halts_in P (writeall ws fd buf count g).
Proof.
  intros fd buf count g. unfold halts_in.
  destruct (writeall_result ws fd buf count g) as [[v ->]| ->];
    [exact I|exact P_unfinished].
Qed.

Lemma proxy_iteration_halts_in pty r buf g :
  halts_in P (proxy_iteration pty r buf g).
Proof.
  unfold halts_in. rewrite proxy_iteration_result. cbv zeta.
  destruct (rv (w_ret (r_wait r)) <? 0);
    [destruct (errno (w_ret (r_wait r)) =? EINTR); exact I|].
  set (g' := mk_globals _ _).
  assert (Hl : halts_in P (relay_local r pty buf g')).
  { unfold relay_local. destruct (w_ready (r_wait r) 0); [|exact I].
    apply bind_halts_in; [exact I|]. intros _ _.
    destruct (rd_count (r_read0 r) <? 0); [exact I|].
    apply bind_halts_in; [apply writeall_halts_in|]. intros; exact I. }
  assert (Ht : forall b, halts_in P (relay_target r pty b g')).
  { intros b. unfold relay_target.
    destruct (w_ready (r_wait r) pty); [|exact I].
    apply bind_halts_in; [exact I|]. intros _ _.
    destruct (rd_count (r_readpty r) <=? 0); [exact I|].
    apply bind_halts_in; [apply writeall_halts_in|]. intros; exact I. }
  unfold halts_in in Hl.
  destruct (result (relay_local r pty buf g')) as [[b|]|o];
    [apply Ht|exact I|exact Hl].
Qed.

Lemma proxy_loop_halts_in pty rounds : forall buf g,
  halts_in P (proxy_loop pty rounds buf g).
Proof.
  induction rounds as [|r rs IH]; intros buf g; cbn [proxy_loop];
    [exact P_unfinished|].
  apply bind_halts_in; [apply proxy_iteration_halts_in|].
  intros [b|] _; [apply IH|exact I].
Qed.

Lemma do_proxy_halts_in px pty g : halts_in P (do_proxy px pty g).
Proof.
  unfold do_proxy. apply bind_halts_in; [exact I|]. intros _ _.
  destruct (px_sigprocmask px =? -1); [exact I|].
  apply bind_halts_in; [exact I|]. intros _ _.
  apply bind_halts_in; [unfold halts_in; now rewrite resize_pty_run|].
  intros _ _. apply proxy_loop_halts_in.
Qed.

Lemma restore_loop_halts_in saved : forall answers g,
  halts_in P (restore_loop answers saved g).
Proof.
  induction answers as [|a rest IH]; intros g; cbn [restore_loop];
    [exact P_unfinished|].
  apply bind_halts_in; [exact I|]. intros _ _.
  destruct (negb (rv a =? 0) && negb (errno a =? EINTR)); [exact P_exit1|].
  destruct (errno a =? EINTR); [apply IH|exact I].
Qed.

Lemma relay_session_halts_in e pty g :
  halts_in P (relay_session e pty g) /\
  forall v, result (relay_session e pty g) = Ret v -> v = 0.
Proof.
  split.
  - unfold relay_session. apply bind_halts_in.
    + unfold setup_raw. apply bind_halts_in; [exact I|]. intros _ _.
      destruct (t_get (e_raw e)); [|exact I].
      apply bind_halts_in; [exact I|]. intros _ _.
      destruct (t_set (e_raw e) <? 0); [exact P_exit1|exact I].
    + intros saved _. apply bind_halts_in; [apply do_proxy_halts_in|].
      intros _ _. apply bind_halts_in; [apply restore_loop_halts_in|].
      intros; exact I.
  - intros v Hv. now destruct (session_restores_snapshot_aux e pty g v Hv).
Qed.

Lemma main_halts_in e argv g :
  (e_fork e = 0 -> forall f a, P (ExecImage f a)) ->
  halts_in P (main e argv g) /\
  forall v, result (main e argv g) = Ret v -> v = 0.
Proof.
  intros Hchild.
  assert (Hbody : forall argv o st g0,
            halts_in P (main_after_options e argv o st g0) /\
            forall v, result (main_after_options e argv o st g0) = Ret v ->
                      v = 0).
  { clear argv. intros argv o st g0. unfold main_after_options.
    destruct (negb (do_attach o =? 0) && (List.length argv <=? optind st)%nat);
      [split; [exact P_exit1|discriminate]|].
    assert (Hmid : forall pty g1,
              halts_in P
                ((if negb (do_attach o =? 0)
                  then attach_branch e o (nth (optind st) argv EmptyString) pty
                  else bind (create_branch e o argv pty) (fun _ => ret pty))
                   g1)).
    { intros pty g1. destruct (negb (do_attach o =? 0)).
      - unfold attach_branch. apply bind_halts_in.
        + unfold halts_in.
          destruct (parse_pid_cases (nth (optind st) argv EmptyString) g1)
            as [[msg ->]|[child ->]]; [exact P_exit1|exact I].
        + intros child _. apply bind_halts_in.
          * destruct (negb (do_steal o =? 0)); exact I.
          * intros [err pty'] _. destruct (negb (err =? 0)); [|exact I].
            apply bind_halts_in; [exact I|]. intros _ _.
            apply bind_halts_in; [destruct (err =? EPERM); exact I|].
            intros _ _. exact P_exit1.
      - apply bind_halts_in; [|intros; exact I].
        unfold create_branch. apply bind_halts_in; [exact I|]. intros _ _.
        destruct (2 <? List.length argv)%nat; [|exact I].
        apply bind_halts_in; [exact I|]. intros _ _.
        destruct (Z.eqb_spec (e_fork e) 0) as [Hf|Hf]; [|exact I].
        unfold child_branch. apply bind_halts_in; [exact I|]. intros _ _.
        apply bind_halts_in.
        { destruct (negb (unattached_script_redirection o =? 0)); exact I. }
        intros _ _. apply bind_halts_in; [exact I|]. intros _ _.
        apply bind_halts_in; [exact I|]. intros _ _.
        destruct (e_execvp_fails e); [exact P_exit1|now apply Hchild]. }
    split.
    - apply bind_halts_in.
      + unfold allocate_pty. destruct (do_steal o =? 0); [|exact I].
        apply bind_halts_in; [exact I|]. intros _ _.
        destruct (e_get_pt e <? 0); [exact P_exit1|].
        apply bind_halts_in; [exact I|]. intros _ _.
        destruct (e_unlockpt e <? 0); [exact P_exit1|].
        apply bind_halts_in; [exact I|]. intros _ _.
        destruct (e_grantpt e <? 0); [exact P_exit1|exact I].
      + intros pty _. apply bind_halts_in; [apply Hmid|].
        intros pty' _. apply relay_session_halts_in.
    - intros v. rewrite result_bind.
      destruct (result (allocate_pty e o g0)); [|discriminate].
      rewrite result_bind.
      destruct (result _); [|discriminate].
      apply relay_session_halts_in. }
  unfold main. split.
  - apply bind_halts_in.
    + unfold halts_in.
      destruct (options_run (e_posixly_correct e) argv g)
        as [[o [st [argv' [-> _]]]]|[out [-> Hx]]]; [exact I|].
      destruct Hx as [[-> _]|[[-> _]|[-> _]]];
        [exact P_exit0|exact P_exit0|exact P_exit1].
    + intros [[o st] argv'] _. apply Hbody.
  - intros v. rewrite result_bind.
    destruct (result (option_loop _ _ _ _ _ _)) as [[[o st] argv']|];
      [|discriminate].
    apply Hbody.
Qed.

End Outcomes.

(** X18. The process never leaves with a status other than 0 or 1,
    whatever its arguments and whatever the system answers; and only the
    child of the fork in create mode ends in the image of another
    program. *)
Theorem exit_status_zero_or_one (e : env) (argv : list string) :
  exit_ok (fst (program e argv))
  /\ (e_fork e <> 0 -> forall f a, fst (program e argv) <> ExecImage f a).
Proof.
  unfold program. cbn [fst]. split.
  - destruct (main_halts_in exit_ok (or_introl eq_refl) (or_intror eq_refl) I
                e argv initial_globals (fun _ _ _ => I)) as [Hh Hv].
    unfold halts_in in Hh.
    destruct (result (main e argv initial_globals)) as [v|o];
      [left; now apply Hv|exact Hh].
  - intros Hfork f a.
    destruct (main_halts_in
                (fun o => match o with ExecImage _ _ => False | _ => True end)
                I I I e argv initial_globals
                (fun H => False_ind _ (Hfork H))) as [Hh _].
    unfold halts_in in Hh.
    destruct (result (main e argv initial_globals)) as [v|o];
      [discriminate|].
    intros ->. exact Hh.
Qed.

(** ** The further statements at the sample runs *)

Lemma writeall_writes_in_order_witness :
  exists rest,
    firstn 3 sample_bytes =
    (written 1 (trace (writeall sample_writes 1 sample_bytes 3 initial_globals))
     ++ rest)%list
    /\ (result (writeall sample_writes 1 sample_bytes 3 initial_globals) = Ret 0
        -> 3 <= Z.of_nat (List.length sample_bytes) -> rest = []).
Proof.
  refine (writeall_writes_in_order sample_writes 1 sample_bytes 3
            initial_globals _).
  cbn. repeat (constructor; [cbn; lia|]). constructor.
Defined.

Lemma relay_copies_bytes_witness :
  exists rest,
    sample_bytes =
    (written 5 (trace (relay_local local_data_round 5 [] initial_globals))
     ++ rest)%list
    /\ (result (writeall (r_write_pty local_data_round) 5
                  (read_into [] (r_read0 local_data_round)) 3 initial_globals)
        = Ret 0 -> rest = []).
Proof.
  refine (proj1 (relay_copies_bytes local_data_round 5 [] initial_globals)
            eq_refl _ eq_refl _).
  - cbn. lia.
  - cbn. repeat (constructor; [cbn; try lia; exact I|]). constructor.
Defined.

Lemma relay_causes_end_pass_witness :
  target_read_end 5 target_eof_round
  /\ result (proxy_iteration 5 target_eof_round [] initial_globals) = Ret Return.
Proof.
  assert (H : target_read_end 5 target_eof_round).
  { unfold target_read_end. cbn. repeat split; lia. }
  split; [exact H|].
  exact (proj1 (proj2 (proj2
           (relay_causes_end_pass 5 target_eof_round [] initial_globals))
           H eq_refl)).
Defined.

Lemma resize_follows_signal_witness :
  exists tail,
    trace (proxy_loop 5 [winch_round; winch_round; target_eof_round] []
             initial_globals) =
    (trace (proxy_iteration 5 winch_round [] initial_globals) ++
     [GetWinsize 0; SetWinsize 5 (mk_winsize 24 80 0 0)] ++
     Pselect 6 :: tail)%list.
Proof.
  refine (resize_follows_signal 5 winch_round winch_round [target_eof_round]
            [] initial_globals _ eq_refl).
  cbn. lia.
Defined.

Lemma session_restores_snapshot_witness :
  exists before,
    trace (relay_session sample_env 5 initial_globals) =
    (before ++ [Tcsetattr 0 sample_termios])%list.
Proof.
  exact (proj2 (session_restores_snapshot sample_env 5 initial_globals 0
                  eq_refl)).
Defined.

Lemma raw_mode_failure_is_fatal_witness :
  result (relay_session sample_rawfail_env 5 initial_globals) = Halt (Exit 1).
Proof.
  refine (f_equal result
            (raw_mode_failure_is_fatal sample_rawfail_env 5 initial_globals
               sample_termios eq_refl _)).
  cbn. lia.
Defined.

Lemma sigprocmask_failure_ends_session_witness :
  result (relay_session sample_nomask_env 5 initial_globals) = Ret 0.
Proof.
  refine (f_equal result
            (sigprocmask_failure_ends_session sample_nomask_env 5
               initial_globals sample_termios (mk_sysret 0 0) []
               eq_refl eq_refl _ eq_refl eq_refl _)).
  - cbn. lia.
  - cbn. discriminate.
Defined.

Lemma pid_accepted_iff_valid_witness :
  parse_pid " +42" initial_globals = mk_run (Ret 42) initial_globals [].
Proof.
  refine (proj2 (pid_accepted_iff_valid " +42" initial_globals _)
            " "%string "+"%string "42"%string eq_refl eq_refl _ _ eq_refl _).
  - cbn. repeat split; discriminate.
  - now right.
  - discriminate.
  - cbn. unfold INT_MAX. lia.
Defined.

Lemma verbose_option_enables_debug_witness :
  trace (debug "attached"
           (after (option_loop (option_fuel ["reptyr"; "-V"; "42"]%string)
                     false ["reptyr"; "-V"; "42"]%string
                     getopt_start initial_options initial_globals))) =
  [Stderr "[+] attached"].
Proof.
  exact (f_equal trace
           (proj2 (proj2
              (verbose_option_enables_debug false
                 ["reptyr"; "-V"; "42"]%string
                 initial_globals initial_options
                 (mk_getopt_state 2 EmptyString 2 3)
                 ["reptyr"; "-V"; "42"]%string eq_refl))
              eq_refl "attached"%string)).
Defined.

Lemma missing_pid_rejected_witness :
  result (main sample_env ["reptyr"; "-s"]%string initial_globals) =
  Halt (Exit 1).
Proof.
  refine (proj1 (missing_pid_rejected sample_env ["reptyr"; "-s"]%string
                   initial_globals (mk_options 1 1 0 0)
                   (mk_getopt_state 2 EmptyString 2 2)
                   ["reptyr"; "-s"]%string eq_refl _ _)).
  - cbn. discriminate.
  - cbn. lia.
Defined.

Lemma allocation_failure_is_fatal_witness :
  trace (main sample_nopty_env ["reptyr"; "42"; "-s"]%string initial_globals) =
  [GetPt; Stderr "[!] Unable to allocate a new pseudo-terminal: %m"].
Proof.
  refine (proj1 (proj2 (allocation_failure_is_fatal sample_nopty_env
                   ["reptyr"; "42"; "-s"]%string initial_globals
                   (mk_options 1 1 0 0)
                   (mk_getopt_state 2 EmptyString 2 3)
                   ["reptyr"; "-s"; "42"]%string eq_refl _ eq_refl _))).
  - right. cbn. lia.
  - left. cbn. lia.
Defined.

Lemma attach_failure_exits_witness :
  trace (main sample_denied_env ["reptyr"; "42"; "-s"]%string
           initial_globals) =
  [GetPt; Unlockpt 5; Grantpt 5; AttachChild 42 "/dev/pts/9" 1;
   Stderr "Unable to attach to pid %d: %s\n"; PtraceScopeHint].
Proof.
  refine (proj2 (attach_failure_exits sample_denied_env
                   ["reptyr"; "42"; "-s"]%string initial_globals
                   (mk_options 1 1 0 0)
                   (mk_getopt_state 2 EmptyString 2 3)
                   ["reptyr"; "-s"; "42"]%string 42
                   eq_refl _ _ (fun g0 => eq_refl) eq_refl _ _ _ _)).
  - cbn. discriminate.
  - cbn. lia.
  - cbn. lia.
  - cbn. lia.
  - cbn. lia.
  - cbn. discriminate.
Defined.

Lemma attach_success_relays_witness :
  result (main sample_env ["reptyr"; "42"; "-s"]%string initial_globals) =
  Ret 0
  /\ exists tail,
       trace (main sample_env ["reptyr"; "42"; "-s"]%string initial_globals) =
       GetPt :: Unlockpt 5 :: Grantpt 5 :: AttachChild 42 "/dev/pts/9" 1 ::
       tail.
Proof.
  refine ((fun H => conj (proj1 H) (ex_intro _ _ (proj2 H)))
            (attach_success_relays sample_env
               ["reptyr"; "42"; "-s"]%string
               initial_globals (mk_options 1 1 0 0)
               (mk_getopt_state 2 EmptyString 2 3)
               ["reptyr"; "-s"; "42"]%string 42
               eq_refl _ _ (fun g0 => eq_refl) eq_refl _ _ _ eq_refl)).
  - cbn. discriminate.
  - cbn. lia.
  - cbn. lia.
  - cbn. lia.
  - cbn. lia.
Defined.

Lemma steal_relays_on_stolen_terminal_witness :
  exists tail,
    trace (main sample_env ["reptyr"; "42"; "-T"]%string initial_globals) =
    StealPty 42 :: Tcgetattr 0 :: tail.
Proof.
  eexists.
  refine (proj2 (proj1 (steal_relays_on_stolen_terminal sample_env
                   ["reptyr"; "42"; "-T"]%string initial_globals
                   (mk_options 1 0 1 0) (mk_getopt_state 2 EmptyString 2 3)
                   ["reptyr"; "-T"; "42"]%string 42
                   eq_refl _ _ (fun g0 => eq_refl) _) eq_refl)).
  - cbn. discriminate.
  - cbn. lia.
  - cbn. discriminate.
Defined.

Lemma create_child_runs_command_witness :
  result (main sample_child_env ["reptyr"; "-L"; "top"; "-b"]%string
            initial_globals) =
  Halt (ExecImage "top" ["top"; "-b"]%string).
Proof.
  refine (f_equal result
            (create_child_runs_command sample_child_env "reptyr" "top"
               ["-b"%string] initial_globals true _ _ _ eq_refl)).
  - cbn. lia.
  - cbn. lia.
  - cbn. lia.
Defined.

Lemma exit_status_zero_or_one_witness :
  fst (program sample_env ["reptyr"; "-l"; "top"]%string) <>
  ExecImage "top" ["top"%string].
Proof.
  refine (proj2 (exit_status_zero_or_one sample_env
                   ["reptyr"; "-l"; "top"]%string) _
            "top"%string ["top"%string]).
  cbn. discriminate.
Defined.
